(** * REIVM: the bounded stack, the word dictionary and the VM loop

    A shallow embedding of the TypeScript sources of REIVM
    ([src/stack.ts], [src/dictionary.ts], [src/word.ts], [src/errors.ts],
    [src/vm.ts], [src/bootstrap.ts], [src/core/stack-ops.ts],
    [src/core/arithmetic.ts]) and the properties of its specification.

    How the code is rendered:
    - the [Stack] and [Dictionary] objects, which the code mutates in
      place, live in a store and are reached through locations; a VM
      object holds the locations of the three objects it owns;
    - every method is a computation in a state-and-exception monad whose
      result keeps the state reached when an exception is thrown, since
      nothing is rolled back;
    - a native word body is a computation on the data stack of the VM it
      is invoked with;
    - [execute] calls itself for the tokens of a compiled body; the number
      of nested calls that the host allows is a parameter, and exceeding it
      is the host's [RangeError];
    - every [new Date()] of one call is the argument [now] of that call;
    - numbers are the exact values they denote and strings are sequences
      of code units below 256. *)

From Stdlib Require Import ZArith QArith String Ascii List Lia.
From stdpp Require Import base option list gmap strings.

Local Open Scope string_scope.
Local Open Scope list_scope.
Local Open Scope stdpp_scope.
Local Open Scope Z_scope.

(** ** JavaScript values *)

(** A JavaScript number.  A finite double is represented by the exact
    rational it denotes (kept in lowest terms); rounding to 53 bits and
    the sign of zero are not represented. *)
Inductive JSNumber : Type :=
  | NaN
  | Infinity (negative : bool)
  | Finite (q : Q).

(** [StackValue = number | string | boolean | object | null | undefined];
    an object is known by its reference only. *)
Inductive StackValue : Type :=
  | VNumber (n : JSNumber)
  | VString (s : string)
  | VBoolean (b : bool)
  | VObject (ref : nat)
  | VNull
  | VUndefined.

(** ** Errors ([src/errors.ts]) *)

(** The class an exception object was constructed from.  [ErrorC] is the
    built-in [Error]; [RangeErrorC], [TypeErrorC] and [SyntaxErrorC] are the
    host's own exceptions (call stack exhausted, property access on [null],
    malformed JSON). *)
Inductive ErrorClass : Type :=
  | ErrorC
  | REIErrorC
  | StackOverflowErrorC
  | StackUnderflowErrorC
  | WordNotFoundErrorC
  | ControlFlowErrorC
  | RangeErrorC
  | TypeErrorC
  | SyntaxErrorC.

(** An exception object: [message] is the field of [Error]; [type] and
    [context] are the public fields that the constructor of [REIError]
    adds, absent ([None]) on an object that is not a [REIError]. *)
Record JSError : Type := mkJSError {
  class : ErrorClass;
  message : string;
  type : option string;
  context : option (list (string * string))
}.

(** [new Error(message)] *)
Definition Error (message : string) : JSError :=
  mkJSError ErrorC message None None.

(** [new REIError(message, type, context?)], called through [super] by the
    subclass [cls]. *)
Definition REIError (cls : ErrorClass) (message type : string)
    (context : option (list (string * string))) : JSError :=
  mkJSError cls message (Some type) context.

Definition StackOverflowError : JSError :=
  REIError StackOverflowErrorC "Stack overflow" "STACK_OVERFLOW" None.

Definition StackUnderflowError : JSError :=
  REIError StackUnderflowErrorC "Stack underflow" "STACK_UNDERFLOW" None.

Definition WordNotFoundError (name : string) : JSError :=
  REIError WordNotFoundErrorC ("Word not found: " ++ name) "WORD_NOT_FOUND"
    (Some [("word", name)]).

Definition ControlFlowError (message : string) : JSError :=
  REIError ControlFlowErrorC message "CONTROL_FLOW_ERROR" None.

(** ** Computations that mutate a state and may throw *)

(** How a call ends: it returns a value or throws. *)
Inductive Completion (A : Type) : Type :=
  | Normal (a : A)
  | Throw (e : JSError).
Arguments Normal {A} a.
Arguments Throw {A} e.

(** A method on a state [S]: the state after the call is returned in both
    cases, because a throw undoes nothing. *)
Definition SE (S A : Type) : Type := S → Completion A * S.

Definition se_ret {S A} (a : A) : SE S A := λ s, (Normal a, s).

Definition se_bind {S A B} (k : A → SE S B) (m : SE S A) : SE S B :=
  λ s, match m s with
       | (Normal a, s') => k a s'
       | (Throw e, s') => (Throw e, s')
       end.

Definition throw {S A} (e : JSError) : SE S A := λ s, (Throw e, s).

Definition get {S} : SE S S := λ s, (Normal s, s).

Definition put {S} (s : S) : SE S unit := λ _, (Normal tt, s).

#[global] Instance SE_ret {S} : MRet (SE S) := @se_ret S.
#[global] Instance SE_bind {S} : MBind (SE S) := @se_bind S.

(** [for (const x of xs) { f(x) }] *)
Fixpoint for_each {S A} (f : A → SE S unit) (xs : list A) : SE S unit :=
  match xs with
  | [] => mret tt
  | x :: xs' => f x ;; for_each f xs'
  end.

(** [xs.map(f)] for a callback that may throw. *)
Fixpoint map_each {S A B} (f : A → SE S B) (xs : list A) : SE S (list B) :=
  match xs with
  | [] => mret []
  | x :: xs' => y ← f x; ys ← map_each f xs'; mret (y :: ys)
  end.

(** ** Stack ([src/stack.ts]) *)

Module Stack.

(** [items] is the backing array, bottom first; [maxDepth] is the
    constructor argument, an integer. *)
Record t : Type := mk {
  items : list StackValue;
  maxDepth : Z
}.

(** [constructor(maxDepth: number = 256)] *)
Definition new (maxDepth : option Z) : t :=
  mk [] (default 256 maxDepth).

Definition push (value : StackValue) : SE t unit := λ s,
  if Z.of_nat (length (items s)) >=? maxDepth s
  then (Throw StackOverflowError, s)
  else (Normal tt, mk (items s ++ [value]) (maxDepth s)).

Definition pop : SE t StackValue := λ s,
  if (length (items s) =? 0)%nat
  then (Throw StackUnderflowError, s)
  else (Normal (default VUndefined (last (items s))),
        mk (removelast (items s)) (maxDepth s)).

Definition peek : SE t StackValue := λ s,
  if (length (items s) =? 0)%nat
  then (Throw StackUnderflowError, s)
  else (Normal (default VUndefined (last (items s))), s).

Definition depth : SE t nat := λ s, (Normal (length (items s)), s).

Definition clear : SE t unit := λ s, (Normal tt, mk [] (maxDepth s)).

Definition snapshot : SE t (list StackValue) := λ s, (Normal (items s), s).

End Stack.

(** ** Words ([src/word.ts]) *)

Inductive Category : Type := CORE | STANDARD | USER.

#[global] Instance Category_eq_dec : EqDecision Category.
Proof. solve_decision. Defined.

(** A [Date], as milliseconds since the epoch. *)
Definition Date : Type := Z.

(** [WordBody = string[] | ((vm: VM) => void)].  A native body acts on the
    data stack of the VM it is invoked with, as every word of
    [src/core/stack-ops.ts] and [src/core/arithmetic.ts] does. *)
Inductive WordBody : Type :=
  | Native (f : SE Stack.t unit)
  | Compiled (tokens : list string).

Inductive Word : Type := mkWord {
  name : string;
  stackEffect : string;
  body : WordBody;
  immediate : bool;
  protected : bool;
  category : Category;
  metadata : WordMetadata
}
with WordMetadata : Type := mkWordMetadata {
  defined : Date;
  usageCount : Z;
  previousDefinitions : option (list PreviousDefinition);
  documentation : option string
}
with PreviousDefinition : Type := mkPreviousDefinition {
  timestamp : Date;
  definition : Word
}.

(** [Partial<Word>]: every field may be missing. *)
Record PartialWord : Type := mkPartialWord {
  p_name : option string;
  p_stackEffect : option string;
  p_body : option WordBody;
  p_immediate : option bool;
  p_protected : option bool;
  p_category : option Category;
  p_metadata : option WordMetadata
}.

(** A complete [Word] passed where a [Partial<Word>] is expected. *)
Definition partial_of (w : Word) : PartialWord :=
  mkPartialWord (Some (name w)) (Some (stackEffect w)) (Some (body w))
    (Some (immediate w)) (Some (protected w)) (Some (category w))
    (Some (metadata w)).

(** ** Dictionary ([src/dictionary.ts]) *)

(** [const index = xs.indexOf(x); if (index !== -1) xs.splice(index, 1)] *)
Fixpoint remove_first (x : string) (xs : list string) : list string :=
  match xs with
  | [] => []
  | y :: ys => if decide (y = x) then ys else y :: remove_first x ys
  end.

Module Dictionary.

Record t : Type := mk {
  words : gmap string Word;
  definitionOrder : list string
}.

Definition new : t := mk ∅ [].

(** [existing?.protected], as a condition. *)
Definition is_protected (existing : option Word) : bool :=
  match existing with
  | Some w => protected w
  | None => false
  end.

(** The object literal that [define] builds from its arguments; [now] is
    the clock reading of [new Date()]. *)
Definition completeWord (now : Date) (name : string) (word : PartialWord)
    : Word :=
  mkWord name
    (default "( -- )" (p_stackEffect word))
    (default (Compiled []) (p_body word))
    (default false (p_immediate word))
    (default false (p_protected word))
    (default USER (p_category word))
    (default (mkWordMetadata now 0 None None) (p_metadata word)).

(** [metadata.previousDefinitions.push({timestamp, definition})], after
    the array has been created if it was missing.  The metadata record is
    a value here: the push is seen in the word being defined, not in other
    holders of the record that the caller passed. *)
Definition archive (now : Date) (existing : Word) (w : Word) : Word :=
  let md := metadata w in
  mkWord (name w) (stackEffect w) (body w) (immediate w) (protected w)
    (category w)
    (mkWordMetadata (defined md) (usageCount md)
       (Some (default [] (previousDefinitions md)
                ++ [mkPreviousDefinition now existing]))
       (documentation md)).

(** Every clock reading taken during one call is the argument [now]. *)
Definition define (now : Date) (name : string) (word : PartialWord)
    : SE t unit :=
  d ← get;
  let existing := words d !! name in
  if is_protected existing
  then throw (Error ("Cannot redefine protected word: " ++ name))
  else
    let completeWord := completeWord now name word in
    match existing with
    | Some old =>
        put (mk (<[name := archive now old completeWord]> (words d))
                (definitionOrder d))
    | None =>
        put (mk (<[name := completeWord]> (words d))
                (definitionOrder d ++ [name]))
    end.

Definition find (name : string) : SE t (option Word) :=
  d ← get; mret (words d !! name).

Definition forget (name : string) : SE t unit :=
  d ← get;
  match words d !! name with
  | None => throw (Error ("Cannot forget unknown word: " ++ name))
  | Some word =>
      if protected word
      then throw (Error ("Cannot forget protected word: " ++ name))
      else put (mk (delete name (words d))
                   (remove_first name (definitionOrder d)))
  end.

(** [word?.category === filter] *)
Definition has_category (d : t) (filter : Category) (name : string) : bool :=
  match words d !! name with
  | Some word => bool_decide (category word = filter)
  | None => false
  end.

Definition list (filter : option Category) : SE t (list string) :=
  d ← get;
  match filter with
  | None => mret (definitionOrder d)
  | Some c => mret (List.filter (has_category d c) (definitionOrder d))
  end.

End Dictionary.

(** ** The host's string and number primitives

    What the code takes from JavaScript itself: [Number(string)], [isNaN],
    [String.prototype.trim], [split(/\s+/)], [JSON.stringify] and
    [JSON.parse] on arrays of strings, and the arithmetic operators.  A
    string is a sequence of code units below 256. *)

(** [WhiteSpace] and [LineTerminator] code units: TAB, LF, VT, FF, CR, SP
    and NBSP. *)
Definition is_whitespace (c : ascii) : bool :=
  match N_of_ascii c with
  | 9 | 10 | 11 | 12 | 13 | 32 | 160 => true
  | _ => false
  end%N.

Fixpoint drop_whitespace (s : list ascii) : list ascii :=
  match s with
  | [] => []
  | c :: r => if is_whitespace c then drop_whitespace r else s
  end.

(** [s.trim()] *)
Definition trim (s : list ascii) : list ascii :=
  rev (drop_whitespace (rev (drop_whitespace s))).

(** [s.split(/\s+/)]: the pieces between the maximal runs of white space;
    [cur] is the piece being read, reversed, and [in_sep] tells that the
    previous code unit was white space. *)
Fixpoint split_whitespace (in_sep : bool) (cur : list ascii) (s : list ascii)
    : list (list ascii) :=
  match s with
  | [] => [rev cur]
  | c :: r =>
      if is_whitespace c
      then if in_sep then split_whitespace true cur r
           else rev cur :: split_whitespace true [] r
      else split_whitespace false (c :: cur) r
  end.

(** The value of a digit in the given base, if it is one. *)
Definition digit_of (base : Z) (c : ascii) : option Z :=
  let n := Z.of_N (N_of_ascii c) in
  let v := if (48 <=? n) && (n <=? 57) then Some (n - 48)
           else if (97 <=? n) && (n <=? 102) then Some (n - 87)
           else if (65 <=? n) && (n <=? 70) then Some (n - 55)
           else None in
  match v with
  | Some d => if d <? base then Some d else None
  | None => None
  end.

(** Reads the longest prefix of digits: its value on top of [acc], the
    number of digits read, and what follows. *)
Fixpoint read_digits (base : Z) (s : list ascii) (acc : Z) (count : nat)
    : Z * nat * list ascii :=
  match s with
  | [] => (acc, count, [])
  | c :: r =>
      match digit_of base c with
      | Some d => read_digits base r (acc * base + d) (S count)
      | None => (acc, count, s)
      end
  end.

(** [m * 10^e] *)
Definition scale10 (m e : Z) : Q :=
  if 0 <=? e then inject_Z (m * 10 ^ e)
  else Qred (Qmake m (Z.to_pos (10 ^ (- e)))).

(** [ExponentPart], optional and last: its value. *)
Definition exponent_part (s : list ascii) : option Z :=
  match s with
  | [] => Some 0
  | c :: r =>
      if bool_decide (c = "e"%char) || bool_decide (c = "E"%char)
      then
        let '(sign, r') :=
          match r with
          | "+"%char :: r' => (1, r')
          | "-"%char :: r' => (-1, r')
          | _ => (1, r)
          end in
        let '(e, n, rest) := read_digits 10 r' 0 0 in
        match n, rest with
        | S _, [] => Some (sign * e)
        | _, _ => None
        end
      else None
  end.

(** [StrUnsignedDecimalLiteral] *)
Definition unsigned_decimal (s : list ascii) : JSNumber :=
  if bool_decide (s = list_ascii_of_string "Infinity") then Infinity false
  else
    let '(i, ni, r1) := read_digits 10 s 0 0 in
    let '(m, nf, r2) :=
      match r1 with
      | "."%char :: r => read_digits 10 r i 0
      | _ => (i, 0%nat, r1)
      end in
    match (ni + nf)%nat with
    | O => NaN
    | S _ =>
        match exponent_part r2 with
        | Some e => Finite (scale10 m (e - Z.of_nat nf))
        | None => NaN
        end
    end.

Definition negate (n : JSNumber) : JSNumber :=
  match n with
  | NaN => NaN
  | Infinity b => Infinity (negb b)
  | Finite q => Finite (Qopp q)
  end.

(** [StrDecimalLiteral]: an optional sign. *)
Definition str_decimal (s : list ascii) : JSNumber :=
  match s with
  | "+"%char :: r => unsigned_decimal r
  | "-"%char :: r => negate (unsigned_decimal r)
  | _ => unsigned_decimal s
  end.

(** [NonDecimalIntegerLiteral], after its prefix. *)
Definition non_decimal (base : Z) (s : list ascii) : JSNumber :=
  let '(v, n, rest) := read_digits base s 0 0 in
  match n, rest with
  | S _, [] => Finite (inject_Z v)
  | _, _ => NaN
  end.

(** [Number(value)] on a string (ECMAScript's StringToNumber): white space
    around the literal is ignored, the empty literal is 0, and what does
    not match the grammar is [NaN]. *)
Definition Number (value : string) : JSNumber :=
  match trim (list_ascii_of_string value) with
  | [] => Finite 0
  | "0"%char :: x :: r =>
      if bool_decide (x = "x"%char) || bool_decide (x = "X"%char)
      then non_decimal 16 r
      else if bool_decide (x = "o"%char) || bool_decide (x = "O"%char)
      then non_decimal 8 r
      else if bool_decide (x = "b"%char) || bool_decide (x = "B"%char)
      then non_decimal 2 r
      else str_decimal ("0"%char :: x :: r)
  | s => str_decimal s
  end.

Definition isNaN (n : JSNumber) : bool :=
  match n with
  | NaN => true
  | _ => false
  end.

(** *** [JSON.stringify] and [JSON.parse] on arrays of strings *)

Definition quote_char : ascii := "034"%char.
Definition backslash : ascii := "092"%char.

(** Lower-case hexadecimal digit of a value below 16. *)
Definition hex_digit (n : N) : ascii :=
  ascii_of_N (if (n <? 10)%N then 48 + n else 87 + n).

(** QuoteJSONString, one code unit: the quote, the backslash and the
    control characters are escaped. *)
Definition escape_char (c : ascii) : list ascii :=
  match N_of_ascii c with
  | 34 => [backslash; quote_char]
  | 92 => [backslash; backslash]
  | 8 => [backslash; "b"%char]
  | 12 => [backslash; "f"%char]
  | 10 => [backslash; "n"%char]
  | 13 => [backslash; "r"%char]
  | 9 => [backslash; "t"%char]
  | n => if (n <? 32)%N
         then [backslash; "u"%char; "0"%char; "0"%char;
               hex_digit (n / 16); hex_digit (n mod 16)]
         else [c]
  end%N.

Definition quote_string (s : string) : list ascii :=
  quote_char :: concat (map escape_char (list_ascii_of_string s))
    ++ [quote_char].

(** The elements and the closing bracket. *)
Fixpoint stringify_elements (xs : list string) : list ascii :=
  match xs with
  | [] => ["]"%char]
  | [x] => quote_string x ++ ["]"%char]
  | x :: xs' => quote_string x ++ ","%char :: stringify_elements xs'
  end.

(** [JSON.stringify(xs)] for [xs: string[]] *)
Definition JSON_stringify (xs : list string) : string :=
  string_of_list_ascii ("["%char :: stringify_elements xs).

(** [\uXXXX]: the code unit, when it is below 256. *)
Definition hex4 (h1 h2 h3 h4 : ascii) : option ascii :=
  match digit_of 16 h1, digit_of 16 h2, digit_of 16 h3, digit_of 16 h4 with
  | Some d1, Some d2, Some d3, Some d4 =>
      let v := ((d1 * 16 + d2) * 16 + d3) * 16 + d4 in
      if v <? 256 then Some (ascii_of_N (Z.to_N v)) else None
  | _, _, _, _ => None
  end.

Definition prepend (c : ascii) (r : option (list ascii * list ascii))
    : option (list ascii * list ascii) :=
  match r with
  | Some (cs, rest) => Some (c :: cs, rest)
  | None => None
  end.

(** Reads a JSON string after its opening quote: the code units it
    denotes and the text after its closing quote. *)
Fixpoint parse_string_chars (s : list ascii)
    : option (list ascii * list ascii) :=
  match s with
  | [] => None
  | c :: r =>
      match N_of_ascii c with
      | 34 => Some ([], r)
      | 92 =>
          match r with
          | [] => None
          | e :: r' =>
              match N_of_ascii e with
              | 34 => prepend quote_char (parse_string_chars r')
              | 92 => prepend backslash (parse_string_chars r')
              | 47 => prepend "/"%char (parse_string_chars r')
              | 98 => prepend "008"%char (parse_string_chars r')
              | 102 => prepend "012"%char (parse_string_chars r')
              | 110 => prepend "010"%char (parse_string_chars r')
              | 114 => prepend "013"%char (parse_string_chars r')
              | 116 => prepend "009"%char (parse_string_chars r')
              | 117 =>
                  match r' with
                  | h1 :: h2 :: h3 :: h4 :: r'' =>
                      match hex4 h1 h2 h3 h4 with
                      | Some d => prepend d (parse_string_chars r'')
                      | None => None
                      end
                  | _ => None
                  end
              | _ => None
              end%N
          end
      | n => if (n <? 32)%N then None
             else prepend c (parse_string_chars r)
      end%N
  end.

(** JSON white space: SP, TAB, LF, CR. *)
Definition is_json_ws (c : ascii) : bool :=
  match N_of_ascii c with
  | 32 | 9 | 10 | 13 => true
  | _ => false
  end%N.

Fixpoint skip_ws (s : list ascii) : list ascii :=
  match s with
  | [] => []
  | c :: r => if is_json_ws c then skip_ws r else s
  end.

(** Reads the elements of a non-empty array, from the first one to the
    closing bracket and the end of the text; [fuel] bounds the number of
    elements. *)
Fixpoint parse_elements (fuel : nat) (s : list ascii) : option (list string) :=
  match fuel with
  | O => None
  | S fuel' =>
      match skip_ws s with
      | q :: r =>
          if bool_decide (q = quote_char)
          then
            match parse_string_chars r with
            | Some (str, rest) =>
                match skip_ws rest with
                | c :: rest' =>
                    if bool_decide (c = ","%char)
                    then cons (string_of_list_ascii str)
                           <$> parse_elements fuel' rest'
                    else if bool_decide (c = "]"%char)
                    then match skip_ws rest' with
                         | [] => Some [string_of_list_ascii str]
                         | _ => None
                         end
                    else None
                | [] => None
                end
            | None => None
            end
          else None
      | [] => None
      end
  end.

(** [JSON.parse(text) as string[]]: [None] stands for the [SyntaxError]
    of a malformed text.  A text that denotes anything but an array of
    strings is outside this model and is refused as well. *)
Definition JSON_parse (text : string) : option (list string) :=
  match skip_ws (list_ascii_of_string text) with
  | "["%char :: r =>
      match skip_ws r with
      | "]"%char :: r' =>
          match skip_ws r' with
          | [] => Some []
          | _ => None
          end
      | _ => parse_elements (length r) r
      end
  | _ => None
  end.

(** *** Arithmetic on numbers and the operators on values *)

Definition is_zero (q : Q) : bool := Qnum q =? 0.
Definition is_negative (q : Q) : bool := Qnum q <? 0.

Definition num_add (a b : JSNumber) : JSNumber :=
  match a, b with
  | NaN, _ | _, NaN => NaN
  | Infinity s, Infinity t => if Bool.eqb s t then Infinity s else NaN
  | Infinity s, Finite _ | Finite _, Infinity s => Infinity s
  | Finite x, Finite y => Finite (Qred (x + y))
  end.

Definition num_sub (a b : JSNumber) : JSNumber := num_add a (negate b).

Definition num_mul (a b : JSNumber) : JSNumber :=
  match a, b with
  | NaN, _ | _, NaN => NaN
  | Infinity s, Infinity t => Infinity (xorb s t)
  | Infinity s, Finite y | Finite y, Infinity s =>
      if is_zero y then NaN else Infinity (xorb s (is_negative y))
  | Finite x, Finite y => Finite (Qred (x * y))
  end.

Definition num_div (a b : JSNumber) : JSNumber :=
  match a, b with
  | NaN, _ | _, NaN => NaN
  | Infinity _, Infinity _ => NaN
  | Infinity s, Finite y => Infinity (xorb s (is_negative y))
  | Finite _, Infinity _ => Finite 0
  | Finite x, Finite y =>
      if is_zero y
      then if is_zero x then NaN else Infinity (is_negative x)
      else Finite (Qred (x / y))
  end.

(** The integer part, towards zero. *)
Definition truncate (q : Q) : Z := Z.quot (Qnum q) (Zpos (Qden q)).

Definition num_mod (a b : JSNumber) : JSNumber :=
  match a, b with
  | NaN, _ | _, NaN => NaN
  | Infinity _, _ => NaN
  | Finite x, Infinity _ => Finite x
  | Finite x, Finite y =>
      if is_zero y then NaN
      else Finite (Qred (x - y * inject_Z (truncate (x / y))))
  end.

Definition num_lt (a b : JSNumber) : bool :=
  match a, b with
  | NaN, _ | _, NaN => false
  | Infinity s, Infinity t => s && negb t
  | Infinity s, Finite _ => s
  | Finite _, Infinity t => negb t
  | Finite x, Finite y => match (x ?= y)%Q with Lt => true | _ => false end
  end.

Definition num_eq (a b : JSNumber) : bool :=
  match a, b with
  | NaN, _ | _, NaN => false
  | Infinity s, Infinity t => Bool.eqb s t
  | Finite x, Finite y => Qeq_bool x y
  | _, _ => false
  end.

(** [ToNumber] on the primitive values; an object is taken to have no
    numeric conversion. *)
Definition ToNumber (v : StackValue) : JSNumber :=
  match v with
  | VNumber n => n
  | VString s => Number s
  | VBoolean b => Finite (if b then 1 else 0)
  | VNull => Finite 0
  | VUndefined => NaN
  | VObject _ => NaN
  end.

(** [a + b].  Two strings are concatenated and other operands are added
    as numbers; an operand pair that mixes a string with another type would
    need the rendering of that value as text, which is not modelled: the
    words of [src/core/arithmetic.ts] take their operands [as number]. *)
Definition js_add (a b : StackValue) : StackValue :=
  match a, b with
  | VString s, VString t => VString (s ++ t)
  | _, _ => VNumber (num_add (ToNumber a) (ToNumber b))
  end.

Definition js_sub (a b : StackValue) : StackValue :=
  VNumber (num_sub (ToNumber a) (ToNumber b)).

Definition js_mul (a b : StackValue) : StackValue :=
  VNumber (num_mul (ToNumber a) (ToNumber b)).

Definition js_div (a b : StackValue) : StackValue :=
  VNumber (num_div (ToNumber a) (ToNumber b)).

Definition js_mod (a b : StackValue) : StackValue :=
  VNumber (num_mod (ToNumber a) (ToNumber b)).

(** [a < b] *)
Definition js_lt (a b : StackValue) : bool :=
  match a, b with
  | VString s, VString t => String.ltb s t
  | _, _ => num_lt (ToNumber a) (ToNumber b)
  end.

(** [a <= b] *)
Definition js_le (a b : StackValue) : bool :=
  match a, b with
  | VString s, VString t => String.leb s t
  | _, _ => let x := ToNumber a in let y := ToNumber b in
            num_lt x y || num_eq x y
  end.

(** [a === b] *)
Definition js_strict_eq (a b : StackValue) : bool :=
  match a, b with
  | VNumber x, VNumber y => num_eq x y
  | VString s, VString t => String.eqb s t
  | VBoolean x, VBoolean y => Bool.eqb x y
  | VObject r, VObject r' => Nat.eqb r r'
  | VNull, VNull => true
  | VUndefined, VUndefined => true
  | _, _ => false
  end.

(** ** Core words ([src/core/stack-ops.ts], [src/core/arithmetic.ts]) *)

(** The clock reading of [new Date()] when the modules of the core words
    were loaded. *)
Definition load_time : Date := 0.

Definition core_word (name stackEffect : string) (body : SE Stack.t unit)
    (documentation : string) : Word :=
  mkWord name stackEffect (Native body) false true CORE
    (mkWordMetadata load_time 0 None (Some documentation)).

Definition DUP : Word :=
  core_word "DUP" "( n -- n n )"
    (value ← Stack.peek; Stack.push value)
    "Duplicate the top stack value".

Definition DROP : Word :=
  core_word "DROP" "( n -- )"
    (_ ← Stack.pop; mret tt)
    "Remove the top stack value".

Definition SWAP : Word :=
  core_word "SWAP" "( a b -- b a )"
    (b ← Stack.pop; a ← Stack.pop; Stack.push b;; Stack.push a)
    "Swap the top two stack values".

Definition OVER : Word :=
  core_word "OVER" "( a b -- a b a )"
    (b ← Stack.pop; a ← Stack.peek; Stack.push b;; Stack.push a)
    "Copy the second stack value to the top".

Definition ROT : Word :=
  core_word "ROT" "( a b c -- b c a )"
    (c ← Stack.pop; b ← Stack.pop; a ← Stack.pop;
     Stack.push b;; Stack.push c;; Stack.push a)
    "Rotate the top three stack values".

Definition TWODUP : Word :=
  core_word "2DUP" "( a b -- a b a b )"
    (b ← Stack.pop; a ← Stack.pop;
     Stack.push a;; Stack.push b;; Stack.push a;; Stack.push b)
    "Duplicate the top two stack values".

Definition TWODROP : Word :=
  core_word "2DROP" "( a b -- )"
    (_ ← Stack.pop; _ ← Stack.pop; mret tt)
    "Remove the top two stack values".

Definition TWOSWAP : Word :=
  core_word "2SWAP" "( a b c d -- c d a b )"
    (d ← Stack.pop; c ← Stack.pop; b ← Stack.pop; a ← Stack.pop;
     Stack.push c;; Stack.push d;; Stack.push a;; Stack.push b)
    "Swap the top two pairs of stack values".

Definition stackOps : list Word :=
  [DUP; DROP; SWAP; OVER; ROT; TWODUP; TWODROP; TWOSWAP].

(** The shape shared by the arithmetic and comparison words: pop [b], pop
    [a], push [op a b]. *)
Definition binary (op : StackValue → StackValue → StackValue)
    : SE Stack.t unit :=
  b ← Stack.pop; a ← Stack.pop; Stack.push (op a b).

Definition ADD : Word :=
  core_word "+" "( a b -- sum )" (binary js_add) "Add two numbers".

Definition SUB : Word :=
  core_word "-" "( a b -- difference )" (binary js_sub) "Subtract b from a".

Definition MUL : Word :=
  core_word "*" "( a b -- product )" (binary js_mul) "Multiply two numbers".

Definition DIV : Word :=
  core_word "/" "( a b -- quotient )" (binary js_div) "Divide a by b".

Definition MOD : Word :=
  core_word "MOD" "( a b -- remainder )" (binary js_mod)
    "Calculate remainder of a divided by b".

Definition EQ : Word :=
  core_word "=" "( a b -- bool )"
    (binary (λ a b, VBoolean (js_strict_eq a b)))
    "Test if two values are equal".

Definition LT : Word :=
  core_word "<" "( a b -- bool )"
    (binary (λ a b, VBoolean (js_lt a b)))
    "Test if a is less than b".

Definition GT : Word :=
  core_word ">" "( a b -- bool )"
    (binary (λ a b, VBoolean (js_lt b a)))
    "Test if a is greater than b".

Definition LTE : Word :=
  core_word "<=" "( a b -- bool )"
    (binary (λ a b, VBoolean (js_le a b)))
    "Test if a is less than or equal to b".

Definition GTE : Word :=
  core_word ">=" "( a b -- bool )"
    (binary (λ a b, VBoolean (js_le b a)))
    "Test if a is greater than or equal to b".

Definition arithmeticOps : list Word :=
  [ADD; SUB; MUL; DIV; MOD; EQ; LT; GT; LTE; GTE].

(** [src/core/index.ts].  The words of [strings.ts], [console.ts] and
    [dom.ts], which the index collects as well, act on text, on the console
    and on the DOM of the host; they are left out, and no property below
    depends on which native words the dictionary holds. *)
Definition CoreWords : list Word := stackOps ++ arithmeticOps.

(** ** The store *)

#[global] Instance Stack_inhabited : Inhabited Stack.t :=
  populate (Stack.mk [] 0).
#[global] Instance Dictionary_inhabited : Inhabited Dictionary.t :=
  populate Dictionary.new.

(** The [Stack] and [Dictionary] objects that exist, by location; [next]
    is the first location never handed out. *)
Record World : Type := mkWorld {
  stacks : gmap nat Stack.t;
  dictionaries : gmap nat Dictionary.t;
  next : nat
}.

Definition empty_world : World := mkWorld ∅ ∅ 0%nat.

(** A method call on the [Stack] object at location [l]. *)
Definition on_stack {A} (l : nat) (m : SE Stack.t A) : SE World A := λ w,
  let '(r, s') := m (stacks w !!! l) in
  (r, mkWorld (alter (λ _, s') l (stacks w)) (dictionaries w) (next w)).

(** A method call on the [Dictionary] object at location [l]. *)
Definition on_dictionary {A} (l : nat) (m : SE Dictionary.t A) : SE World A :=
  λ w,
  let '(r, d') := m (dictionaries w !!! l) in
  (r, mkWorld (stacks w) (alter (λ _, d') l (dictionaries w)) (next w)).

(** ** VM ([src/vm.ts]) *)

Record VMConfig : Type := mkVMConfig {
  stackDepth : option Z;
  returnStackDepth : option Z
}.

(** The exception of the host when its call stack is exhausted. *)
Definition CallStackExceeded : JSError :=
  mkJSError RangeErrorC "Maximum call stack size exceeded" None None.

(** The exception of the host on a property access on [null]. *)
Definition NullAccess : JSError :=
  mkJSError TypeErrorC "null is not an object" None None.

(** The exception of [JSON.parse]. *)
Definition JSONSyntaxError : JSError :=
  mkJSError SyntaxErrorC "JSON Parse error" None None.

Record SerializedWord : Type := mkSerializedWord {
  s_name : string;
  s_stackEffect : string;
  s_body : string;
  s_immediate : bool;
  s_metadata : WordMetadata
}.

(** [state_timestamp] stands for the ISO-8601 text of the date. *)
Record VMState : Type := mkVMState {
  state_version : string;
  state_timestamp : Date;
  state_stack : list StackValue;
  state_dictionary : list SerializedWord;
  state_config : VMConfig
}.

Module VM.

(** A VM object: the locations of the three objects it owns, and its
    own fields. *)
Record t : Type := mk {
  dataStack : nat;
  returnStack : nat;
  dictionary : nat;
  tracing : bool;
  trace : list StackValue;
  config : VMConfig
}.

(** [constructor(config?: VMConfig)]: three fresh objects. *)
Definition new (config : option VMConfig) : SE World t := λ w,
  let l := next w in
  (Normal (mk l (S l) l false [] (default (mkVMConfig None None) config)),
   mkWorld
     (<[S l := Stack.new (Some (default 256 (config ≫= returnStackDepth)))]>
        (<[l := Stack.new (Some (default 256 (config ≫= stackDepth)))]>
           (stacks w)))
     (<[l := Dictionary.new]> (dictionaries w))
     (S (S l))).

Definition parse (code : string) : list string :=
  List.filter (λ token, (0 <? String.length token)%nat)
    (map string_of_list_ascii
       (split_whitespace false [] (trim (list_ascii_of_string code)))).

(** [execute(wordOrName)]; [frames] is what is left of the host's call
    stack, one frame for each nested call of [execute]. *)
Fixpoint execute (frames : nat) (vm : t) (wordOrName : Word + string)
    : SE World unit :=
  match frames with
  | O => throw CallStackExceeded
  | S frames' =>
      word ← match wordOrName with
             | inr name =>
                 found ← on_dictionary (dictionary vm) (Dictionary.find name);
                 match found with
                 | None => throw (WordNotFoundError name)
                 | Some found => mret found
                 end
             | inl word => mret word
             end;
      match body word with
      | Native f => on_stack (dataStack vm) f
      | Compiled tokens =>
          for_each
            (λ token,
               let num := Number token in
               if negb (isNaN num)
               then on_stack (dataStack vm) (Stack.push (VNumber num))
               else execute frames' vm (inr token))
            tokens
      end
  end.

Definition run (frames : nat) (vm : t) (code : string) : SE World unit :=
  let tokens := parse code in
  for_each
    (λ token,
       let num := Number token in
       if negb (isNaN num)
       then on_stack (dataStack vm) (Stack.push (VNumber num))
       else execute frames vm (inr token))
    tokens.

(** The callback of [userWords.map] in [serialize]. *)
Definition serialize_word (vm : t) (userWord : string)
    : SE World SerializedWord :=
  found ← on_dictionary (dictionary vm) (Dictionary.find userWord);
  match found with
  | None => throw NullAccess
  | Some word =>
      mret (mkSerializedWord (name word) (stackEffect word)
              (match body word with
               | Native _ => "__NATIVE__"
               | Compiled tokens => JSON_stringify tokens
               end)
              (immediate word) (metadata word))
  end.

Definition serialize (now : Date) (vm : t) : SE World VMState :=
  userWords ← on_dictionary (dictionary vm) (Dictionary.list (Some USER));
  serializedWords ← map_each (serialize_word vm) userWords;
  stack ← on_stack (dataStack vm) Stack.snapshot;
  mret (mkVMState "0.1.0" now stack serializedWords (config vm)).

(** The body of the loop over [state.dictionary] in [deserialize]. *)
Definition restore_word (now : Date) (vm : t) (serializedWord : SerializedWord)
    : SE World unit :=
  if bool_decide (s_body serializedWord = "__NATIVE__")
  then mret tt
  else
    match JSON_parse (s_body serializedWord) with
    | None => throw JSONSyntaxError
    | Some body =>
        on_dictionary (dictionary vm)
          (Dictionary.define now (s_name serializedWord)
             (mkPartialWord None
                (Some (s_stackEffect serializedWord))
                (Some (Compiled body))
                (Some (s_immediate serializedWord))
                (Some false)
                (Some USER)
                (Some (s_metadata serializedWord))))
    end.

Definition deserialize (now : Date) (vm : t) (state : VMState)
    : SE World unit :=
  on_stack (dataStack vm) Stack.clear;;
  for_each (λ value, on_stack (dataStack vm) (Stack.push value))
    (state_stack state);;
  for_each (restore_word now vm) (state_dictionary state).



End VM.

(** ** Bootstrap ([src/bootstrap.ts]) *)

Definition bootstrapVM (now : Date) (config : option VMConfig)
    : SE World VM.t :=
  vm ← VM.new config;
  for_each
    (λ word, on_dictionary (VM.dictionary vm)
               (Dictionary.define now (name word) (partial_of word)))
    CoreWords;;
  mret vm.

(** ** Vocabulary of the properties *)

(** [n] calls of [pop], with the values in the order they were returned. *)
Fixpoint pop_n (n : nat) : SE Stack.t (list StackValue) :=
  match n with
  | O => mret []
  | S n' => v ← Stack.pop; vs ← pop_n n'; mret (v :: vs)
  end.

(** The invariant of a [Stack]: [0 <= length <= maxDepth]. *)
Definition stack_inv (s : Stack.t) : Prop :=
  Z.of_nat (length (Stack.items s)) <= Stack.maxDepth s.

(** The invariant of a [Dictionary]: [definitionOrder] lists the keys of
    [words], each once, and every word is stored under its own name. *)
Record dict_inv (d : Dictionary.t) : Prop := mk_dict_inv {
  inv_nodup : NoDup (Dictionary.definitionOrder d);
  inv_dom : ∀ key, key ∈ Dictionary.definitionOrder d
                    ↔ is_Some (Dictionary.words d !! key);
  inv_name : ∀ key word, Dictionary.words d !! key = Some word →
                          name word = key
}.


(** An attempt to change the binding of a name. *)
Inductive Attempt : Type :=
  | TryDefine (now : Date) (word : PartialWord)
  | TryForget.

Definition attempt (name : string) (a : Attempt) : SE Dictionary.t unit :=
  match a with
  | TryDefine now word => Dictionary.define now name word
  | TryForget => Dictionary.forget name
  end.

(** The attempts in sequence, whatever their outcomes: how each ended and
    the dictionary after the last. *)
Fixpoint attempt_all (name : string) (attempts : list Attempt)
    (d : Dictionary.t) : list (Completion unit) * Dictionary.t :=
  match attempts with
  | [] => ([], d)
  | a :: attempts' =>
      let '(r, d') := attempt name a d in
      let '(rs, d'') := attempt_all name attempts' d' in
      (r :: rs, d'')
  end.

Definition is_throw {A} (r : Completion A) : bool :=
  match r with
  | Throw _ => true
  | Normal _ => false
  end.

(** The objects at a location of the store. *)
Definition stack_at (w : World) (l : nat) : Stack.t := stacks w !!! l.
Definition dictionary_at (w : World) (l : nat) : Dictionary.t :=
  dictionaries w !!! l.

(** The store after the object at [l] has become [s]. *)
Definition set_stack (l : nat) (s : Stack.t) (w : World) : World :=
  mkWorld (<[l := s]> (stacks w)) (dictionaries w) (next w).
Definition set_dictionary (l : nat) (d : Dictionary.t) (w : World) : World :=
  mkWorld (stacks w) (<[l := d]> (dictionaries w)) (next w).

(** [vm.dataStack.snapshot()] and the dictionary of [vm], read in [w]. *)
Definition snapshot_of (vm : VM.t) (w : World) : list StackValue :=
  Stack.items (stack_at w (VM.dataStack vm)).
Definition dictionary_of (vm : VM.t) (w : World) : Dictionary.t :=
  dictionary_at w (VM.dictionary vm).

(** The objects of [vm] exist in [w]. *)
Definition live (vm : VM.t) (w : World) : Prop :=
  is_Some (stacks w !! VM.dataStack vm)
  ∧ is_Some (stacks w !! VM.returnStack vm)
  ∧ is_Some (dictionaries w !! VM.dictionary vm).

(** The treatment of one token, the same in the loop of [run] and in the
    loop of [execute] over a compiled body. *)
Definition dispatch (frames : nat) (vm : VM.t) (token : string)
    : SE World unit :=
  let num := Number token in
  if negb (isNaN num)
  then on_stack (VM.dataStack vm) (Stack.push (VNumber num))
  else VM.execute frames vm (inr token).

(** The points where the core raises an error: [push] on a full stack,
    [pop] and [peek] on an empty one, [execute] of a name that the
    dictionary does not bind, [define] and [forget]. *)
Inductive raised : JSError → Prop :=
  | raised_push v s e :
      (Stack.push v s).1 = Throw e → raised e
  | raised_pop s e :
      (Stack.pop s).1 = Throw e → raised e
  | raised_peek s e :
      (Stack.peek s).1 = Throw e → raised e
  | raised_execute frames vm name w e :
      Dictionary.words (dictionary_of vm w) !! name = None →
      (VM.execute (S frames) vm (inr name) w).1 = Throw e → raised e
  | raised_define now name word d e :
      (Dictionary.define now name word d).1 = Throw e → raised e
  | raised_forget name d e :
      (Dictionary.forget name d).1 = Throw e → raised e.

(** C7 as the specification words it: every such error has a kind tag
    and a context. *)
Definition C7_as_stated : Prop :=
  ∀ e, raised e → is_Some (type e) ∧ is_Some (context e).

(** C8 as the specification words it: when [run] fails at a token, the
    stack is afterwards as it was just before that token. *)
Definition C8_as_stated : Prop :=
  ∀ frames vm code w pre t post w1 e w2,
    VM.parse code = pre ++ t :: post →
    for_each (dispatch frames vm) pre w = (Normal tt, w1) →
    dispatch frames vm t w1 = (Throw e, w2) →
    ∃ w', VM.run frames vm code w = (Throw e, w')
          ∧ snapshot_of vm w' = snapshot_of vm w1.


(** The invariant of the store: the locations in use are below [next]. *)
Definition world_inv (w : World) : Prop :=
  (∀ l, is_Some (stacks w !! l) → (l < next w)%nat)
  ∧ (∀ l, is_Some (dictionaries w !! l) → (l < next w)%nat).

(** The invariant of a VM object in a store: its objects exist and
    satisfy their invariants, and its stacks have the capacities of its
    configuration, as the constructor made them. *)
Record vm_inv (vm : VM.t) (w : World) : Prop := mk_vm_inv {
  inv_live : live vm w;
  inv_dictionary : dict_inv (dictionary_of vm w);
  inv_data : stack_inv (stack_at w (VM.dataStack vm));
  inv_return : stack_inv (stack_at w (VM.returnStack vm));
  inv_data_depth :
    Stack.maxDepth (stack_at w (VM.dataStack vm))
    = default 256 (stackDepth (VM.config vm));
  inv_return_depth :
    Stack.maxDepth (stack_at w (VM.returnStack vm))
    = default 256 (returnStackDepth (VM.config vm))
}.




(** The record that [serialize] makes of a word. *)
Definition serialized (word : Word) : SerializedWord :=
  mkSerializedWord (name word) (stackEffect word)
    (match body word with
     | Native _ => "__NATIVE__"
     | Compiled tokens => JSON_stringify tokens
     end)
    (immediate word) (metadata word).


(** [dictionary.list('USER')] and the words under these names. *)
Definition user_names (d : Dictionary.t) : list string :=
  List.filter (Dictionary.has_category d USER) (Dictionary.definitionOrder d).
Definition user_words (d : Dictionary.t) : list Word :=
  omap (λ n, Dictionary.words d !! n) (user_names d).


(** *** Example values *)

(** The user word of the scenarios: [SQUARE] with body [["DUP", "*"]]. *)
Definition SQUARE : PartialWord :=
  mkPartialWord (Some "SQUARE") (Some "( n -- n*n )")
    (Some (Compiled ["DUP"; "*"])) (Some false) (Some false) (Some USER)
    (Some (mkWordMetadata 5 0 None None)).

(** A dictionary that holds [SQUARE] only. *)
Definition square_dictionary : Dictionary.t :=
  (Dictionary.define 6 "SQUARE" SQUARE Dictionary.new).2.

(** A dictionary that holds the protected word [DUP] only. *)
Definition dup_dictionary : Dictionary.t :=
  (Dictionary.define 6 "DUP" (partial_of DUP) Dictionary.new).2.

(** The VM that [bootstrapVM()] returns in the empty store, and the store
    it leaves. *)
Definition boot_vm : VM.t := VM.mk 0 1 0 false [] (mkVMConfig None None).
Definition boot_world : World := (bootstrapVM 1 None empty_world).2.

(** The store after [SQUARE] has been defined in the bootstrapped VM. *)
Definition square_world : World :=
  (on_dictionary (VM.dictionary boot_vm)
     (Dictionary.define 6 "SQUARE" SQUARE) boot_world).2.


(** The store after [SQUARE] has been defined and 8 pushed in the
    bootstrapped VM, and the VM that a second [bootstrapVM()] returns. *)
Definition source_world : World := (VM.run 4 boot_vm "8" square_world).2.
Definition fresh_vm : VM.t := VM.mk 2 3 2 false [] (mkVMConfig None None).

(** A VM bootstrapped with room for 300 values, and the store after 257
    values have been pushed on its data stack. *)
Definition big_vm : VM.t :=
  VM.mk 0 1 0 false [] (mkVMConfig (Some 300) None).
Definition big_world : World :=
  (for_each (λ value, on_stack (VM.dataStack big_vm) (Stack.push value))
     (replicate 257 (VNumber (Finite 1)))
     (bootstrapVM 1 (Some (mkVMConfig (Some 300) None)) empty_world).2).2.



(** *** Vocabulary of the further properties *)

(** The tokens that [parse] gets from the rest [s] of the trimmed text
    when the code units [cur] (last first) of the current piece have been
    read: the pieces of [split], made strings, without the empty ones. *)
Definition tokens_from (cur s : list ascii) : list string :=
  List.filter (λ token, (0 <? String.length token)%nat)
    (map string_of_list_ascii (split_whitespace false cur s)).

(** A token as [parse] returns them: not empty and free of white space. *)
Definition token_like (token : string) : Prop :=
  token ≠ "" ∧ Forall (λ c, is_whitespace c = false) (list_ascii_of_string token).

(** The text consists of white space only (or is empty). *)
Definition blank (code : string) : Prop :=
  Forall (λ c, is_whitespace c = true) (list_ascii_of_string code).

(** The tokens of a list up to the first [sep], and those after it. *)
Fixpoint before (sep : string) (tokens : list string) : list string :=
  match tokens with
  | [] => []
  | t :: r => if String.eqb t sep then [] else t :: before sep r
  end.
Fixpoint after (sep : string) (tokens : list string) : list string :=
  match tokens with
  | [] => []
  | t :: r => if String.eqb t sep then r else after sep r
  end.

(** The numbers of values that a stack-effect notation [( before -- after )]
    names before and after the dashes. *)
Definition effect_inputs (stackEffect : string) : nat :=
  length (before "--" (after "(" (VM.parse stackEffect))).
Definition effect_outputs (stackEffect : string) : nat :=
  length (before ")" (after "--" (VM.parse stackEffect))).

(** The dictionary of [vm] binds the name of every core word to that
    word, as [bootstrapVM] leaves it. *)
Definition core_bound (vm : VM.t) (w : World) : Prop :=
  ∀ word, word ∈ CoreWords →
    Dictionary.words (dictionary_of vm w) !! name word = Some word.

(** The store in which the data stack of [vm] holds [items] instead of
    what it holds in [w]. *)
Definition with_items (vm : VM.t) (items : list StackValue) (w : World)
    : World :=
  set_stack (VM.dataStack vm)
    (Stack.mk items (Stack.maxDepth (stack_at w (VM.dataStack vm)))) w.

(** An integer as a number on the stack, and the integers that a double
    represents exactly together with their neighbours. *)
Definition int (z : Z) : StackValue := VNumber (Finite (inject_Z z)).
Definition safe (z : Z) : Prop := - 2 ^ 53 < z < 2 ^ 53.

(** A store in which the bootstrapped VM holds the given values. *)
Definition boot_with (items : list StackValue) : World :=
  with_items boot_vm items boot_world.

(** A call on a dictionary, by a caller that ignores what it returns. *)
Inductive DictOp : Type :=
  | DoDefine (now : Date) (name : string) (word : PartialWord)
  | DoForget (name : string)
  | DoFind (name : string)
  | DoList (filter : option Category).

Definition dict_perform (op : DictOp) : SE Dictionary.t unit :=
  match op with
  | DoDefine now name word => Dictionary.define now name word
  | DoForget name => Dictionary.forget name
  | DoFind name => _ ← Dictionary.find name; mret tt
  | DoList filter => _ ← Dictionary.list filter; mret tt
  end.

(** The calls in sequence, by a caller that goes on after a failure: the
    dictionary after the last. *)
Fixpoint dict_perform_all (ops : list DictOp) (d : Dictionary.t)
    : Dictionary.t :=
  match ops with
  | [] => d
  | op :: ops' => dict_perform_all ops' (dict_perform op d).2
  end.

(** A computation that works on the stack through its methods, as the
    private fields of [Stack] force the native bodies to: it keeps the
    invariant and the capacity, and what it throws is what [push], [pop]
    and [peek] throw. *)
Definition method_like {A} (f : SE Stack.t A) : Prop :=
  ∀ s, stack_inv s →
    stack_inv (f s).2
    ∧ Stack.maxDepth (f s).2 = Stack.maxDepth s
    ∧ ∀ e, (f s).1 = Throw e →
           e = StackOverflowError ∨ e = StackUnderflowError.

Definition stack_method (f : SE Stack.t unit) : Prop := method_like f.

(** Every native word of the dictionary is such a body. *)
Definition natives_ok (d : Dictionary.t) : Prop :=
  ∀ key word f, Dictionary.words d !! key = Some word →
                body word = Native f → stack_method f.

(** What a run may throw: the two stack errors, the error for a token
    that the dictionary does not bind, and the host's error when the
    calls of [execute] nest too deep. *)
Definition run_error (d : Dictionary.t) (e : JSError) : Prop :=
  e = StackOverflowError ∨ e = StackUnderflowError
  ∨ e = CallStackExceeded
  ∨ ∃ token, Dictionary.words d !! token = None
             ∧ e = WordNotFoundError token.

(** The store [w'] differs from [w] at most in the contents of the data
    stack of [vm], which still satisfies its invariant. *)
Definition data_stack_only (vm : VM.t) (w w' : World) : Prop :=
  dictionaries w' = dictionaries w
  ∧ next w' = next w
  ∧ (∀ l, l ≠ VM.dataStack vm → stacks w' !! l = stacks w !! l)
  ∧ is_Some (stacks w' !! VM.dataStack vm)
  ∧ stack_inv (stack_at w' (VM.dataStack vm))
  ∧ Stack.maxDepth (stack_at w' (VM.dataStack vm))
    = Stack.maxDepth (stack_at w (VM.dataStack vm)).


(** The names under which [deserialize] defines words: those of the
    entries whose body is not the marker of a native body. *)
Definition restored_names (state : VMState) : list string :=
  map s_name
    (List.filter (λ entry, negb (String.eqb (s_body entry) "__NATIVE__"))
       (state_dictionary state)).

(** The dictionary [d'] binds every name that [d] binds, to the same
    word when the name is not among [keys], and lists the names of [d]
    first, in their order. *)
Definition dictionary_grows (keys : list string) (d d' : Dictionary.t)
    : Prop :=
  (∀ key, key ∉ keys →
     Dictionary.words d' !! key = Dictionary.words d !! key)
  ∧ (∀ key, is_Some (Dictionary.words d !! key) →
            is_Some (Dictionary.words d' !! key))
  ∧ Dictionary.definitionOrder d `prefix_of` Dictionary.definitionOrder d'.


(** * Properties *)

(** ** The monad *)

Lemma bind_unfold {S A B} (m : SE S A) (k : A → SE S B) (s : S) :
  (m ≫= k) s =
  match m s with
  | (Normal a, s') => k a s'
  | (Throw e, s') => (Throw e, s')
  end.
Proof. reflexivity. Qed.

Lemma for_each_app {S A} (f : A → SE S unit) (xs ys : list A) (s : S) :
  for_each f (xs ++ ys) s =
  match for_each f xs s with
  | (Normal _, s') => for_each f ys s'
  | (Throw e, s') => (Throw e, s')
  end.
Proof.
  revert s. induction xs as [|x xs IH]; intros s; [reflexivity|].
  cbn [for_each app]. rewrite !bind_unfold.
  destruct (f x s) as [[[]|e] s1]; [apply IH|reflexivity].
Qed.

(** ** Stack *)

Lemma push_ok (v : StackValue) (s : Stack.t) :
  Z.of_nat (length (Stack.items s)) < Stack.maxDepth s →
  Stack.push v s = (Normal tt, Stack.mk (Stack.items s ++ [v]) (Stack.maxDepth s)).
Proof.
  intros H. unfold Stack.push.
  destruct (Z.geb_spec (Z.of_nat (length (Stack.items s))) (Stack.maxDepth s));
    [lia|reflexivity].
Qed.

Lemma push_full (v : StackValue) (s : Stack.t) :
  Stack.maxDepth s <= Z.of_nat (length (Stack.items s)) →
  Stack.push v s = (Throw StackOverflowError, s).
Proof.
  intros H. unfold Stack.push.
  destruct (Z.geb_spec (Z.of_nat (length (Stack.items s))) (Stack.maxDepth s));
    [reflexivity|lia].
Qed.

Lemma pop_snoc (vs : list StackValue) (v : StackValue) (m : Z) :
  Stack.pop (Stack.mk (vs ++ [v]) m) = (Normal v, Stack.mk vs m).
Proof.
  unfold Stack.pop. cbn [Stack.items Stack.maxDepth].
  rewrite length_app, Nat.add_1_r. cbn [Nat.eqb].
  by rewrite last_snoc, removelast_last.
Qed.

Lemma peek_snoc (vs : list StackValue) (v : StackValue) (m : Z) :
  Stack.peek (Stack.mk (vs ++ [v]) m) = (Normal v, Stack.mk (vs ++ [v]) m).
Proof.
  unfold Stack.peek. cbn [Stack.items Stack.maxDepth].
  rewrite length_app, Nat.add_1_r. cbn [Nat.eqb].
  by rewrite last_snoc.
Qed.

Lemma pop_empty (m : Z) :
  Stack.pop (Stack.mk [] m) = (Throw StackUnderflowError, Stack.mk [] m).
Proof. reflexivity. Qed.

(** Pushing a list of values that fits on top of what is there. *)
Lemma push_all (vs items : list StackValue) (m : Z) :
  Z.of_nat (length items + length vs) <= m →
  for_each Stack.push vs (Stack.mk items m) =
  (Normal tt, Stack.mk (items ++ vs) m).
Proof.
  revert items. induction vs as [|v vs IH]; intros items H.
  - by rewrite app_nil_r.
  - cbn [for_each]. rewrite bind_unfold, push_ok.
    + cbn [Stack.items Stack.maxDepth]. rewrite IH.
      * by rewrite <- app_assoc.
      * rewrite length_app. cbn [length] in *. lia.
    + cbn [Stack.items Stack.maxDepth length] in *. lia.
Qed.

Lemma pop_all (vs : list StackValue) (m : Z) :
  pop_n (length vs) (Stack.mk vs m) = (Normal (rev vs), Stack.mk [] m).
Proof.
  induction vs as [|v vs IH] using rev_ind; [reflexivity|].
  rewrite length_app, Nat.add_1_r. cbn [pop_n].
  rewrite bind_unfold, pop_snoc, bind_unfold, IH.
  by rewrite rev_unit.
Qed.

Lemma new_inv (m : Z) : 0 <= m → stack_inv (Stack.new (Some m)).
Proof. unfold stack_inv. cbn. lia. Qed.

Lemma push_inv (v : StackValue) (s : Stack.t) :
  stack_inv s → stack_inv (Stack.push v s).2.
Proof.
  unfold stack_inv, Stack.push. intros H.
  destruct (Z.geb_spec (Z.of_nat (length (Stack.items s))) (Stack.maxDepth s));
    cbn; [done|]. rewrite length_app. cbn. lia.
Qed.

Lemma pop_inv (s : Stack.t) : stack_inv s → stack_inv (Stack.pop s).2.
Proof.
  unfold stack_inv, Stack.pop. intros H.
  destruct (length (Stack.items s) =? 0)%nat; cbn; [done|].
  destruct (Stack.items s) as [|x xs] using rev_ind; [done|].
  rewrite removelast_last. rewrite length_app in H. lia.
Qed.

Lemma peek_inv (s : Stack.t) : stack_inv s → stack_inv (Stack.peek s).2.
Proof. unfold Stack.peek. by destruct (_ =? _)%nat. Qed.

Lemma clear_inv (s : Stack.t) : stack_inv s → stack_inv (Stack.clear s).2.
Proof. unfold stack_inv. cbn. lia. Qed.

(** C3. Stack LIFO and bounds contract: [n <= maxDepth] pushes onto an
    empty stack of capacity [maxDepth] succeed and leave depth [n], and
    [n] pops then return the values in reverse push order; on a stack that
    satisfies its invariant, [push] throws [StackOverflowError] exactly when
    the depth equals [maxDepth] and otherwise adds one to the depth; [pop]
    throws [StackUnderflowError] exactly when the depth is 0 and otherwise
    takes one from the depth. *)
Theorem C3_stack_lifo_and_bounds
    (maxDepth : Z) (vs : list StackValue) (s : Stack.t) (v : StackValue) :
  Z.of_nat (length vs) <= maxDepth →
  stack_inv s →
  (∃ full : Stack.t,
      for_each Stack.push vs (Stack.new (Some maxDepth)) = (Normal tt, full)
      ∧ Stack.depth full = (Normal (length vs), full)
      ∧ pop_n (length vs) full = (Normal (rev vs), Stack.new (Some maxDepth)))
  ∧ ((Stack.push v s).1 = Throw StackOverflowError
     ↔ Z.of_nat (length (Stack.items s)) = Stack.maxDepth s)
  ∧ (Z.of_nat (length (Stack.items s)) ≠ Stack.maxDepth s →
     (Stack.push v s).1 = Normal tt
     ∧ length (Stack.items (Stack.push v s).2) = S (length (Stack.items s)))
  ∧ ((Stack.pop s).1 = Throw StackUnderflowError
     ↔ length (Stack.items s) = 0%nat)
  ∧ (length (Stack.items s) ≠ 0%nat →
     (∃ top, (Stack.pop s).1 = Normal top ∧ last (Stack.items s) = Some top)
     ∧ S (length (Stack.items (Stack.pop s).2)) = length (Stack.items s)).
Proof.
  intros Hvs Hs. unfold stack_inv in Hs. repeat split.
  - exists (Stack.mk vs maxDepth). unfold Stack.new. cbn [default].
    rewrite push_all by (cbn; lia). rewrite pop_all. by cbn.
  - unfold Stack.push.
    destruct (Z.geb_spec (Z.of_nat (length (Stack.items s))) (Stack.maxDepth s));
      cbn; [lia|done].
  - intros H. by rewrite push_full by lia.
  - rewrite push_ok by lia. done.
  - rewrite push_ok by lia. cbn. rewrite length_app. cbn. lia.
  - unfold Stack.pop. destruct (Nat.eqb_spec (length (Stack.items s)) 0); cbn; done.
  - intros H. unfold Stack.pop. by rewrite H.
  - destruct s as [items m]. cbn in *.
    destruct items as [|x xs _] using rev_ind; [done|].
    rewrite pop_snoc. exists x. by rewrite last_snoc.
  - destruct s as [items m]. cbn in *.
    destruct items as [|x xs _] using rev_ind; [done|].
    rewrite pop_snoc. cbn. rewrite length_app. cbn. lia.
Qed.

Lemma C3_stack_lifo_and_bounds_witness :
  Z.of_nat (length [VNumber (Finite 5); VNumber (Finite 3)]) <= 2
  ∧ stack_inv (Stack.mk [VNumber (Finite 5)] 1)
  ∧ pop_n 2 (Stack.mk [VNumber (Finite 5); VNumber (Finite 3)] 2)
    = (Normal [VNumber (Finite 3); VNumber (Finite 5)], Stack.mk [] 2)
  ∧ (Stack.push VNull (Stack.mk [VNumber (Finite 5)] 1)).1
    = Throw StackOverflowError.
Proof.
  assert (H1 : Z.of_nat (length [VNumber (Finite 5); VNumber (Finite 3)]) <= 2)
    by (cbn; lia).
  assert (H2 : stack_inv (Stack.mk [VNumber (Finite 5)] 1))
    by (unfold stack_inv; cbn; lia).
  pose proof (C3_stack_lifo_and_bounds 2
                [VNumber (Finite 5); VNumber (Finite 3)]
                (Stack.mk [VNumber (Finite 5)] 1) VNull H1 H2) as H.
  split; [exact H1|]. split; [exact H2|]. split; [reflexivity|].
  apply (proj1 (proj2 H)). reflexivity.
Defined.

(** ** Dictionary *)

Lemma define_eq (now : Date) (name : string) (word : PartialWord)
    (d : Dictionary.t) :
  Dictionary.define now name word d =
  if Dictionary.is_protected (Dictionary.words d !! name)
  then (Throw (Error ("Cannot redefine protected word: " ++ name)), d)
  else
    match Dictionary.words d !! name with
    | Some old =>
        (Normal tt,
         Dictionary.mk
           (<[name := Dictionary.archive now old
                        (Dictionary.completeWord now name word)]>
              (Dictionary.words d))
           (Dictionary.definitionOrder d))
    | None =>
        (Normal tt,
         Dictionary.mk
           (<[name := Dictionary.completeWord now name word]>
              (Dictionary.words d))
           (Dictionary.definitionOrder d ++ [name]))
    end.
Proof.
  unfold Dictionary.define. rewrite bind_unfold. cbn [get].
  destruct (Dictionary.is_protected _); [reflexivity|].
  destruct (Dictionary.words d !! name); reflexivity.
Qed.

Lemma forget_eq (name : string) (d : Dictionary.t) :
  Dictionary.forget name d =
  match Dictionary.words d !! name with
  | None => (Throw (Error ("Cannot forget unknown word: " ++ name)), d)
  | Some word =>
      if protected word
      then (Throw (Error ("Cannot forget protected word: " ++ name)), d)
      else (Normal tt,
            Dictionary.mk (delete name (Dictionary.words d))
              (remove_first name (Dictionary.definitionOrder d)))
  end.
Proof.
  unfold Dictionary.forget. rewrite bind_unfold. cbn [get].
  destruct (Dictionary.words d !! name) as [word|]; [|reflexivity].
  destruct (protected word); reflexivity.
Qed.

Lemma find_eq (name : string) (d : Dictionary.t) :
  Dictionary.find name d = (Normal (Dictionary.words d !! name), d).
Proof. reflexivity. Qed.

Lemma list_eq (filter : option Category) (d : Dictionary.t) :
  Dictionary.list filter d =
  (Normal match filter with
          | None => Dictionary.definitionOrder d
          | Some c => List.filter (Dictionary.has_category d c)
                        (Dictionary.definitionOrder d)
          end, d).
Proof. destruct filter; reflexivity. Qed.

Lemma archive_name (now : Date) (old w : Word) :
  name (Dictionary.archive now old w) = name w.
Proof. reflexivity. Qed.

Lemma new_dict_inv : dict_inv Dictionary.new.
Proof.
  split; cbn.
  - constructor.
  - intros key. rewrite lookup_empty. split; [by intros ?%elem_of_nil|].
    by intros [? ?].
  - intros key word. by rewrite lookup_empty.
Qed.

(** [define] keeps the invariant, whether it succeeds or throws. *)
Lemma define_inv (now : Date) (name : string) (word : PartialWord)
    (d : Dictionary.t) :
  dict_inv d → dict_inv (Dictionary.define now name word d).2.
Proof.
  intros [Hnd Hdom Hname]. rewrite define_eq.
  destruct (Dictionary.is_protected _); [by split|].
  destruct (Dictionary.words d !! name) as [old|] eqn:Hold; cbn.
  - split; cbn; [done| |].
    + intros key. rewrite Hdom. destruct (decide (key = name)) as [->|Hne].
      * rewrite lookup_insert_eq, Hold. by split; eauto.
      * by rewrite lookup_insert_ne.
    + intros key w. destruct (decide (key = name)) as [->|Hne].
      * rewrite lookup_insert_eq. by intros [= <-].
      * rewrite lookup_insert_ne by done. apply Hname.
  - split; cbn.
    + apply NoDup_app. split; [done|]. split; [|apply NoDup_singleton].
      intros x Hx ->%list_elem_of_singleton.
      apply Hdom in Hx. rewrite Hold in Hx. by destruct Hx.
    + intros key. rewrite elem_of_app, list_elem_of_singleton, Hdom.
      destruct (decide (key = name)) as [->|Hne].
      * rewrite lookup_insert_eq. split; eauto.
      * rewrite lookup_insert_ne by done. split; [|by left].
        by intros [?|?].
    + intros key w. destruct (decide (key = name)) as [->|Hne].
      * rewrite lookup_insert_eq. by intros [= <-].
      * rewrite lookup_insert_ne by done. apply Hname.
Qed.

Lemma remove_first_elem_of (x y : string) (xs : list string) :
  y ≠ x → y ∈ remove_first x xs ↔ y ∈ xs.
Proof.
  intros Hne. induction xs as [|z xs IH]; [done|].
  cbn [remove_first]. destruct (decide (z = x)) as [->|Hz].
  - rewrite elem_of_cons. split; [by right|]. by intros [?|?].
  - by rewrite !elem_of_cons, IH.
Qed.

Lemma remove_first_sublist (x : string) (xs : list string) :
  sublist (remove_first x xs) xs.
Proof.
  induction xs as [|z xs IH]; [constructor|].
  cbn [remove_first]. destruct (decide (z = x)); by constructor.
Qed.

Lemma remove_first_not_elem_of (x : string) (xs : list string) :
  NoDup xs → x ∉ remove_first x xs.
Proof.
  induction xs as [|z xs IH]; intros Hnd; [apply not_elem_of_nil|].
  apply NoDup_cons in Hnd as [Hz Hnd]. cbn [remove_first].
  destruct (decide (z = x)) as [->|Hne]; [done|].
  apply not_elem_of_cons. split; [done|by apply IH].
Qed.

(** [forget] keeps the invariant, whether it succeeds or throws. *)
Lemma forget_inv (name : string) (d : Dictionary.t) :
  dict_inv d → dict_inv (Dictionary.forget name d).2.
Proof.
  intros [Hnd Hdom Hname]. rewrite forget_eq.
  destruct (Dictionary.words d !! name) as [word|] eqn:Hw; [|by split].
  destruct (protected word); [by split|]. split; cbn.
  - exact (sublist_NoDup _ _ Hnd (remove_first_sublist _ _)).
  - intros key. destruct (decide (key = name)) as [->|Hne].
    + rewrite lookup_delete_eq. split; [|by intros [? ?]].
      intros Hin. by apply remove_first_not_elem_of in Hin.
    + by rewrite lookup_delete_ne, remove_first_elem_of, Hdom.
  - intros key w. destruct (decide (key = name)) as [->|Hne].
    + by rewrite lookup_delete_eq.
    + rewrite lookup_delete_ne by done. apply Hname.
Qed.




(** C6. Protected-word immutability: while a name is bound to a protected
    word, every [define] on it and every [forget] of it throws and leaves
    the dictionary (mapping and [definitionOrder]) as it was, however many
    attempts are made and in whatever order. *)
Theorem C6_protected_word_immutable
    (name : string) (existing : Word) (d : Dictionary.t) :
  Dictionary.words d !! name = Some existing →
  protected existing = true →
  (∀ now word,
     Dictionary.define now name word d
     = (Throw (Error ("Cannot redefine protected word: " ++ name)), d))
  ∧ Dictionary.forget name d
    = (Throw (Error ("Cannot forget protected word: " ++ name)), d)
  ∧ (∀ attempts, ∃ outcomes,
       attempt_all name attempts d = (outcomes, d)
       ∧ length outcomes = length attempts
       ∧ Forall (λ r, is_throw r = true) outcomes).
Proof.
  intros Hex Hprot.
  assert (Hdef : ∀ now word,
     Dictionary.define now name word d
     = (Throw (Error ("Cannot redefine protected word: " ++ name)), d)).
  { intros now word. rewrite define_eq, Hex. cbn. by rewrite Hprot. }
  assert (Hfor : Dictionary.forget name d
    = (Throw (Error ("Cannot forget protected word: " ++ name)), d)).
  { rewrite forget_eq, Hex. by rewrite Hprot. }
  split; [exact Hdef|]. split; [exact Hfor|].
  induction attempts as [|a attempts (outcomes & Hall & Hlen & Hthrow)].
  - exists []. by repeat split.
  - cbn [attempt_all].
    assert (∃ e, attempt name a d = (Throw e, d)) as [e ->].
    { destruct a as [now word|]; cbn; eauto. }
    rewrite Hall. eexists. split; [reflexivity|]. split.
    + cbn. by rewrite Hlen.
    + by constructor.
Qed.

Lemma C6_protected_word_immutable_witness :
  Dictionary.words dup_dictionary !! "DUP"
  = Some (Dictionary.completeWord 6 "DUP" (partial_of DUP))
  ∧ Dictionary.define 9 "DUP" SQUARE dup_dictionary
    = (Throw (Error "Cannot redefine protected word: DUP"), dup_dictionary)
  ∧ Dictionary.forget "DUP" dup_dictionary
    = (Throw (Error "Cannot forget protected word: DUP"), dup_dictionary).
Proof.
  assert (H : Dictionary.words dup_dictionary !! "DUP"
              = Some (Dictionary.completeWord 6 "DUP" (partial_of DUP)))
    by (vm_compute; reflexivity).
  destruct (C6_protected_word_immutable "DUP" _ dup_dictionary H
              ltac:(reflexivity)) as (Hdef & Hfor & _).
  split; [exact H|]. split; [apply Hdef|exact Hfor].
Defined.

(** ** The store *)

Lemma world_eta (w : World) :
  mkWorld (stacks w) (dictionaries w) (next w) = w.
Proof. by destruct w. Qed.

Lemma alter_const_total {A} `{Inhabited A} (m : gmap nat A) (l : nat) :
  alter (λ _, m !!! l) l m = m.
Proof.
  apply map_eq. intros i. rewrite lookup_alter. case_decide; [subst|done].
  rewrite lookup_total_alt. by destruct (m !! i).
Qed.

Lemma alter_const_insert {A} (m : gmap nat A) (l : nat) (x : A) :
  is_Some (m !! l) → alter (λ _, x) l m = <[l := x]> m.
Proof.
  intros [y Hy]. apply map_eq. intros i. rewrite lookup_alter, lookup_insert.
  case_decide; [subst; by rewrite Hy|done].
Qed.

(** A method call on a stack that exists. *)
Lemma on_stack_eq {A} (l : nat) (m : SE Stack.t A) (w : World) :
  is_Some (stacks w !! l) →
  on_stack l m w = ((m (stack_at w l)).1, set_stack l (m (stack_at w l)).2 w).
Proof.
  intros Hl. unfold on_stack, set_stack, stack_at.
  destruct (m (stacks w !!! l)) as [r s']. cbn.
  by rewrite alter_const_insert.
Qed.

(** A method call that leaves the stack as it was leaves the store as it
    was. *)
Lemma on_stack_read {A} (l : nat) (m : SE Stack.t A) (w : World) :
  (m (stack_at w l)).2 = stack_at w l →
  on_stack l m w = ((m (stack_at w l)).1, w).
Proof.
  unfold on_stack, stack_at. destruct (m (stacks w !!! l)) as [r s']. cbn.
  intros ->. by rewrite alter_const_total, world_eta.
Qed.

Lemma on_dictionary_eq {A} (l : nat) (m : SE Dictionary.t A) (w : World) :
  is_Some (dictionaries w !! l) →
  on_dictionary l m w
  = ((m (dictionary_at w l)).1, set_dictionary l (m (dictionary_at w l)).2 w).
Proof.
  intros Hl. unfold on_dictionary, set_dictionary, dictionary_at.
  destruct (m (dictionaries w !!! l)) as [r s']. cbn.
  by rewrite alter_const_insert.
Qed.

Lemma on_dictionary_read {A} (l : nat) (m : SE Dictionary.t A) (w : World) :
  (m (dictionary_at w l)).2 = dictionary_at w l →
  on_dictionary l m w = ((m (dictionary_at w l)).1, w).
Proof.
  unfold on_dictionary, dictionary_at.
  destruct (m (dictionaries w !!! l)) as [r s']. cbn.
  intros ->. by rewrite alter_const_total, world_eta.
Qed.

Lemma on_dictionary_find (l : nat) (name : string) (w : World) :
  on_dictionary l (Dictionary.find name) w
  = (Normal (Dictionary.words (dictionary_at w l) !! name), w).
Proof. by rewrite on_dictionary_read. Qed.

Lemma on_dictionary_list (l : nat) (filter : option Category) (w : World) :
  on_dictionary l (Dictionary.list filter) w
  = ((Dictionary.list filter (dictionary_at w l)).1, w).
Proof. rewrite on_dictionary_read; [done|]. by rewrite list_eq. Qed.

Lemma on_stack_snapshot (l : nat) (w : World) :
  on_stack l Stack.snapshot w = (Normal (Stack.items (stack_at w l)), w).
Proof. by rewrite on_stack_read. Qed.

Lemma stack_at_set_stack (l : nat) (s : Stack.t) (w : World) :
  stack_at (set_stack l s w) l = s.
Proof. unfold stack_at, set_stack. cbn. apply lookup_total_insert_eq. Qed.


Lemma set_stack_set_stack (l : nat) (s s' : Stack.t) (w : World) :
  set_stack l s' (set_stack l s w) = set_stack l s' w.
Proof. unfold set_stack. cbn. by rewrite insert_insert_eq. Qed.

Lemma set_stack_id (l : nat) (w : World) :
  is_Some (stacks w !! l) → set_stack l (stack_at w l) w = w.
Proof.
  intros [s Hs]. unfold set_stack, stack_at.
  rewrite insert_id; [apply world_eta|].
  by rewrite lookup_total_alt, Hs.
Qed.

Lemma dictionary_at_set_dictionary (l : nat) (d : Dictionary.t) (w : World) :
  dictionary_at (set_dictionary l d w) l = d.
Proof.
  unfold dictionary_at, set_dictionary. cbn. apply lookup_total_insert_eq.
Qed.

Lemma set_dictionary_set_dictionary (l : nat) (d d' : Dictionary.t)
    (w : World) :
  set_dictionary l d' (set_dictionary l d w) = set_dictionary l d' w.
Proof. unfold set_dictionary. cbn. by rewrite insert_insert_eq. Qed.

Lemma set_dictionary_id (l : nat) (w : World) :
  is_Some (dictionaries w !! l) → set_dictionary l (dictionary_at w l) w = w.
Proof.
  intros [s Hs]. unfold set_dictionary, dictionary_at.
  rewrite insert_id; [apply world_eta|].
  by rewrite lookup_total_alt, Hs.
Qed.

(** A loop of method calls on one stack is a loop on the object. *)
Lemma on_stack_for_each {A} (l : nat) (f : A → SE Stack.t unit)
    (xs : list A) (w : World) :
  is_Some (stacks w !! l) →
  for_each (λ x, on_stack l (f x)) xs w
  = ((for_each f xs (stack_at w l)).1,
     set_stack l (for_each f xs (stack_at w l)).2 w).
Proof.
  revert w. induction xs as [|x xs IH]; intros w Hl.
  - cbn. by rewrite set_stack_id.
  - cbn [for_each]. rewrite !bind_unfold, on_stack_eq by done.
    destruct (f x (stack_at w l)) as [[[]|e] s1]; cbn [fst snd]; [|done].
    rewrite IH.
    + by rewrite stack_at_set_stack, set_stack_set_stack.
    + cbn. rewrite lookup_insert_eq. eauto.
Qed.

(** ** Execution *)

Lemma execute_S (frames : nat) (vm : VM.t) (wordOrName : Word + string) :
  VM.execute (S frames) vm wordOrName =
  (word ← match wordOrName with
          | inr name =>
              found ← on_dictionary (VM.dictionary vm) (Dictionary.find name);
              match found with
              | None => throw (WordNotFoundError name)
              | Some found => mret found
              end
          | inl word => mret word
          end;
   match body word with
   | Native f => on_stack (VM.dataStack vm) f
   | Compiled tokens => for_each (dispatch frames vm) tokens
   end).
Proof. reflexivity. Qed.

Lemma run_eq (frames : nat) (vm : VM.t) (code : string) :
  VM.run frames vm code = for_each (dispatch frames vm) (VM.parse code).
Proof. reflexivity. Qed.

(** [execute] of a name, by what the dictionary binds it to. *)
Lemma execute_name (frames : nat) (vm : VM.t) (name : string) (w : World) :
  VM.execute (S frames) vm (inr name) w =
  match Dictionary.words (dictionary_of vm w) !! name with
  | None => (Throw (WordNotFoundError name), w)
  | Some word =>
      match body word with
      | Native f => on_stack (VM.dataStack vm) f w
      | Compiled tokens => for_each (dispatch frames vm) tokens w
      end
  end.
Proof.
  rewrite execute_S, !bind_unfold, on_dictionary_find.
  unfold dictionary_of.
  destruct (Dictionary.words _ !! name) as [word|]; cbn; [|done].
  by destruct (body word).
Qed.

Lemma execute_word (frames : nat) (vm : VM.t) (word : Word) (w : World) :
  VM.execute (S frames) vm (inl word) w =
  match body word with
  | Native f => on_stack (VM.dataStack vm) f w
  | Compiled tokens => for_each (dispatch frames vm) tokens w
  end.
Proof. rewrite execute_S, bind_unfold. cbn. by destruct (body word). Qed.

(** ** Errors *)

(** C7, amended. Every error raised by the core is one of: a
    [StackOverflowError] or a [StackUnderflowError], which carry the kind
    tag [STACK_OVERFLOW] or [STACK_UNDERFLOW] and no context; a
    [WordNotFoundError], which carries the kind tag [WORD_NOT_FOUND] and
    the offending name as context; or, from [define] and [forget], a plain
    [Error] that carries neither kind tag nor context and names the word in
    its message only. *)
Theorem C7_error_kinds_and_context (e : JSError) :
  raised e →
  (e = StackOverflowError
   ∧ type e = Some "STACK_OVERFLOW" ∧ context e = None)
  ∨ (e = StackUnderflowError
     ∧ type e = Some "STACK_UNDERFLOW" ∧ context e = None)
  ∨ (∃ name, e = WordNotFoundError name
       ∧ type e = Some "WORD_NOT_FOUND"
       ∧ context e = Some [("word", name)])
  ∨ (∃ name,
       (e = Error ("Cannot redefine protected word: " ++ name)
        ∨ e = Error ("Cannot forget protected word: " ++ name)
        ∨ e = Error ("Cannot forget unknown word: " ++ name))
       ∧ class e = ErrorC ∧ type e = None ∧ context e = None).
Proof.
  intros [v s e' H|s e' H|s e' H|frames vm name w e' Hnone H
         |now name word d e' H|name d e' H].
  - left. unfold Stack.push in H.
    destruct (_ >=? _); cbn in H; [|done]. by injection H as <-.
  - right; left. unfold Stack.pop in H.
    destruct (_ =? _)%nat; cbn in H; [|done]. by injection H as <-.
  - right; left. unfold Stack.peek in H.
    destruct (_ =? _)%nat; cbn in H; [|done]. by injection H as <-.
  - right; right; left. rewrite execute_name, Hnone in H. cbn in H.
    injection H as <-. by exists name.
  - right; right; right. rewrite define_eq in H. exists name.
    destruct (Dictionary.is_protected _); cbn in H.
    + injection H as <-. by repeat split; [left|..].
    + by destruct (Dictionary.words d !! name).
  - right; right; right. rewrite forget_eq in H. exists name.
    destruct (Dictionary.words d !! name) as [word|]; cbn in H.
    + destruct (protected word); cbn in H; [|done].
      injection H as <-. by repeat split; [right; left|..].
    + injection H as <-. by repeat split; [right; right|..].
Qed.

Lemma C7_error_kinds_and_context_witness :
  raised (Error "Cannot redefine protected word: DUP")
  ∧ type (Error "Cannot redefine protected word: DUP") = None.
Proof.
  assert (H : raised (Error "Cannot redefine protected word: DUP")).
  { apply (raised_define 9 "DUP" SQUARE dup_dictionary).
    vm_compute. reflexivity. }
  split; [exact H|].
  destruct (C7_error_kinds_and_context _ H)
    as [(Heq & _)|[(Heq & _)|[(name & Heq & _)|(name & _ & _ & Hty & _)]]];
    [discriminate Heq|discriminate Heq|discriminate Heq|exact Hty].
Defined.

(** C7 as stated fails: the error of [define] on the protected word [DUP]
    is a plain [Error], without kind tag and without context. *)
Lemma C7_counterexample : ¬ C7_as_stated.
Proof.
  intros H.
  destruct (H (Error "Cannot redefine protected word: DUP")) as [[t Ht] _].
  - apply (raised_define 9 "DUP" SQUARE dup_dictionary).
    vm_compute. reflexivity.
  - discriminate Ht.
Qed.

(** ** Token dispatch *)

Lemma dispatch_numeral (frames : nat) (vm : VM.t) (token : string) :
  isNaN (Number token) = false →
  dispatch frames vm token
  = on_stack (VM.dataStack vm) (Stack.push (VNumber (Number token))).
Proof. unfold dispatch. by intros ->. Qed.

Lemma dispatch_word (frames : nat) (vm : VM.t) (token : string) :
  isNaN (Number token) = true →
  dispatch frames vm token = VM.execute frames vm (inr token).
Proof. unfold dispatch. by intros ->. Qed.

(** A call, split into how it ends and the store it leaves. *)
Lemma completion_eq {S A} (p : Completion A * S) (r : Completion A) :
  p.1 = r → p = (r, p.2).
Proof. destruct p. cbn. by intros ->. Qed.

Lemma Normal_inj {A} (a b : A) : Normal a = Normal b → a = b.
Proof. by intros [= ->]. Qed.



Lemma boot_eq : bootstrapVM 1 None empty_world = (Normal boot_vm, boot_world).
Proof.
  unfold boot_world. apply completion_eq. vm_compute. reflexivity.
Qed.

(** C4. Token dispatch and compiled-word recursion: [execute] of a word
    with a compiled body runs the per-token dispatch over its tokens in
    order, with one call-stack frame less; the dispatch pushes the number
    of a token that converts to one and calls [execute] by name on any
    other token; [run] applies the same dispatch to [parse(code)]; and on a
    bootstrapped VM with [SQUARE = ["DUP", "*"]], [run("8 SQUARE")] returns
    and leaves 64 on top of the data stack, whenever the host allows two
    nested calls. *)
Theorem C4_token_dispatch :
  (∀ frames vm word tokens w,
     body word = Compiled tokens →
     VM.execute (S frames) vm (inl word) w
     = for_each (dispatch frames vm) tokens w)
  ∧ (∀ frames vm name word tokens w,
       Dictionary.words (dictionary_of vm w) !! name = Some word →
       body word = Compiled tokens →
       VM.execute (S frames) vm (inr name) w
       = for_each (dispatch frames vm) tokens w)
  ∧ (∀ frames vm token,
       dispatch frames vm token
       = if isNaN (Number token)
         then VM.execute frames vm (inr token)
         else on_stack (VM.dataStack vm) (Stack.push (VNumber (Number token))))
  ∧ (∀ frames vm code,
       VM.run frames vm code = for_each (dispatch frames vm) (VM.parse code))
  ∧ (∀ frames,
       (VM.run (S (S frames)) boot_vm "8 SQUARE" square_world).1 = Normal tt
       ∧ last (snapshot_of boot_vm
                 (VM.run (S (S frames)) boot_vm "8 SQUARE" square_world).2)
         = Some (VNumber (Finite 64))).
Proof.
  split; [|split; [|split; [|split]]].
  - intros frames vm word tokens w Hbody. by rewrite execute_word, Hbody.
  - intros frames vm name word tokens w Hfind Hbody.
    by rewrite execute_name, Hfind, Hbody.
  - intros frames vm token. unfold dispatch. by destruct (isNaN _).
  - intros. apply run_eq.
  - intros frames. split; vm_compute; reflexivity.
Qed.

Lemma C4_token_dispatch_witness :
  Dictionary.words (dictionary_of boot_vm square_world) !! "SQUARE"
  = Some (Dictionary.completeWord 6 "SQUARE" SQUARE)
  ∧ VM.execute 3 boot_vm (inr "SQUARE") square_world
    = for_each (dispatch 2 boot_vm) ["DUP"; "*"] square_world.
Proof.
  assert (H : Dictionary.words (dictionary_of boot_vm square_world) !! "SQUARE"
              = Some (Dictionary.completeWord 6 "SQUARE" SQUARE))
    by (vm_compute; reflexivity).
  split; [exact H|].
  exact (proj1 (proj2 C4_token_dispatch) 2%nat boot_vm "SQUARE" _
           ["DUP"; "*"] square_world H eq_refl).
Defined.

(** ** Failure *)

Lemma for_each_fails {S A} (f : A → SE S unit) (pre post : list A) (x : A)
    (s s1 s2 : S) (e : JSError) :
  for_each f pre s = (Normal tt, s1) →
  f x s1 = (Throw e, s2) →
  for_each f (pre ++ x :: post) s = (Throw e, s2).
Proof.
  intros Hpre Hx. rewrite for_each_app, Hpre. cbn [for_each].
  by rewrite bind_unfold, Hx.
Qed.

(** C8, amended. If [run] fails at the k-th token, the error reaches the
    caller unchanged and the store is left as the failing token left it:
    the mutations of tokens 1..k-1 stay in effect, together with what the
    failing token did before it raised.  When the k-th token is a
    non-numeric token that the dictionary does not bind, the error is
    [WordNotFoundError] and the store, hence the stack, is exactly as it
    was just before that token. *)
Theorem C8_failure_without_rollback
    (frames : nat) (vm : VM.t) (code : string) (w : World)
    (pre : list string) (t : string) (post : list string)
    (w1 : World) (e : JSError) (w2 : World) :
  VM.parse code = pre ++ t :: post →
  for_each (dispatch frames vm) pre w = (Normal tt, w1) →
  dispatch frames vm t w1 = (Throw e, w2) →
  VM.run frames vm code w = (Throw e, w2)
  ∧ (isNaN (Number t) = true →
     Dictionary.words (dictionary_of vm w1) !! t = None →
     frames ≠ 0%nat →
     e = WordNotFoundError t ∧ w2 = w1).
Proof.
  intros Hparse Hpre Ht. split.
  - rewrite run_eq, Hparse. by eapply for_each_fails.
  - intros Hnan Hnone Hframes. destruct frames as [|frames]; [done|].
    rewrite dispatch_word, execute_name, Hnone in Ht by done.
    by injection Ht as <- <-.
Qed.

Lemma C8_failure_without_rollback_witness :
  let w1 := (for_each (dispatch 4 boot_vm) ["7"] boot_world).2 in
  for_each (dispatch 4 boot_vm) ["7"] boot_world = (Normal tt, w1)
  ∧ VM.run 4 boot_vm "7 NOPE 8" boot_world
    = (Throw (WordNotFoundError "NOPE"), w1)
  ∧ snapshot_of boot_vm w1 = [VNumber (Finite 7)].
Proof.
  intros w1.
  assert (Hparse : VM.parse "7 NOPE 8" = ["7"] ++ "NOPE" :: ["8"])
    by (vm_compute; reflexivity).
  assert (Hpre : for_each (dispatch 4 boot_vm) ["7"] boot_world
                 = (Normal tt, w1))
    by (apply completion_eq; vm_compute; reflexivity).
  assert (Ht : dispatch 4 boot_vm "NOPE" w1
               = (Throw (WordNotFoundError "NOPE"),
                  (dispatch 4 boot_vm "NOPE" w1).2))
    by (apply completion_eq; vm_compute; reflexivity).
  destruct (C8_failure_without_rollback 4 boot_vm "7 NOPE 8" boot_world
              ["7"] "NOPE" ["8"] _ _ _ Hparse Hpre Ht) as [Hrun Hsame].
  destruct Hsame as [_ Hw2]; [by vm_compute|by vm_compute|done|].
  rewrite Hw2 in Hrun.
  split; [exact Hpre|]. split; [exact Hrun|]. vm_compute. reflexivity.
Defined.

(** C8 as stated fails: in [run("1 +")] on a bootstrapped VM the token
    [+] pops the 1 and then underflows, so the stack after the failure is
    empty, not [[1]] as it was just before the failing token. *)
Lemma C8_counterexample : ¬ C8_as_stated.
Proof.
  intros H.
  pose (w1 := (for_each (dispatch 4 boot_vm) ["1"] boot_world).2).
  destruct (H 4%nat boot_vm "1 +" boot_world ["1"] "+" [] w1
              StackUnderflowError (dispatch 4 boot_vm "+" w1).2)
    as (w' & Hrun & Hsnap).
  - vm_compute. reflexivity.
  - apply completion_eq. vm_compute. reflexivity.
  - apply completion_eq. vm_compute. reflexivity.
  - apply (f_equal snd) in Hrun. cbn [snd] in Hrun. subst w'.
    vm_compute in Hsnap. discriminate Hsnap.
Qed.

(** ** Serialization reads only *)

Lemma bind_read {S A B} (m : SE S A) (k : A → SE S B) (s : S) :
  (m s).2 = s → (∀ a, (k a s).2 = s) → ((m ≫= k) s).2 = s.
Proof.
  intros Hm Hk. rewrite bind_unfold.
  destruct (m s) as [[a|e] s']; cbn in Hm; subst s'; [apply Hk|done].
Qed.

Lemma map_each_read {S A B} (f : A → SE S B) (xs : list A) (s : S) :
  (∀ x, (f x s).2 = s) → (map_each f xs s).2 = s.
Proof.
  intros Hf. induction xs as [|x xs IH]; [done|].
  cbn [map_each]. apply bind_read; [apply Hf|]. intros y.
  apply bind_read; [apply IH|done].
Qed.

Lemma serialize_word_read (vm : VM.t) (name : string) (w : World) :
  (VM.serialize_word vm name w).2 = w.
Proof.
  unfold VM.serialize_word. apply bind_read.
  - by rewrite on_dictionary_find.
  - by intros [word|].
Qed.

Lemma serialize_read (now : Date) (vm : VM.t) (w : World) :
  (VM.serialize now vm w).2 = w.
Proof.
  unfold VM.serialize. apply bind_read.
  - by rewrite on_dictionary_list.
  - intros userWords. apply bind_read.
    + apply map_each_read. intros name. apply serialize_word_read.
    + intros serializedWords. apply bind_read; [|done].
      by rewrite on_stack_snapshot.
Qed.

(** C9. [serialize] is read-only: the store after the call is the store
    before it, so the snapshots of both stacks, [dictionary.list] with any
    filter and [dictionary.find] of any name answer as before. *)
Theorem C9_serialize_read_only (now : Date) (vm : VM.t) (w : World) :
  let w' := (VM.serialize now vm w).2 in
  w' = w
  ∧ on_stack (VM.dataStack vm) Stack.snapshot w'
    = on_stack (VM.dataStack vm) Stack.snapshot w
  ∧ on_stack (VM.returnStack vm) Stack.snapshot w'
    = on_stack (VM.returnStack vm) Stack.snapshot w
  ∧ (∀ filter,
       on_dictionary (VM.dictionary vm) (Dictionary.list filter) w'
       = on_dictionary (VM.dictionary vm) (Dictionary.list filter) w)
  ∧ (∀ name,
       on_dictionary (VM.dictionary vm) (Dictionary.find name) w'
       = on_dictionary (VM.dictionary vm) (Dictionary.find name) w).
Proof. cbn zeta. by rewrite serialize_read. Qed.

(** ** The numeral test *)






(** ** Frames: what a call leaves alone *)







(** ** Clone *)


Lemma dictionary_at_lookup (l : nat) (d : Dictionary.t) (w : World) :
  dictionaries w !! l = Some d → dictionary_at w l = d.
Proof. intros H. unfold dictionary_at. by rewrite lookup_total_alt, H. Qed.

Lemma stack_at_lookup (l : nat) (s : Stack.t) (w : World) :
  stacks w !! l = Some s → stack_at w l = s.
Proof. intros H. unfold stack_at. by rewrite lookup_total_alt, H. Qed.

Lemma completeWord_partial_of (now : Date) (word : Word) :
  Dictionary.completeWord now (name word) (partial_of word) = word.
Proof. by destruct word. Qed.





(** ** Bootstrap *)

Lemma on_dictionary_for_each {A} (l : nat) (f : A → SE Dictionary.t unit)
    (xs : list A) (w : World) :
  is_Some (dictionaries w !! l) →
  for_each (λ x, on_dictionary l (f x)) xs w
  = ((for_each f xs (dictionary_at w l)).1,
     set_dictionary l (for_each f xs (dictionary_at w l)).2 w).
Proof.
  revert w. induction xs as [|x xs IH]; intros w Hl.
  - cbn. by rewrite set_dictionary_id.
  - cbn [for_each]. rewrite !bind_unfold, on_dictionary_eq by done.
    destruct (f x (dictionary_at w l)) as [[[]|e] s1]; cbn [fst snd]; [|done].
    rewrite IH.
    + by rewrite dictionary_at_set_dictionary, set_dictionary_set_dictionary.
    + cbn. rewrite lookup_insert_eq. eauto.
Qed.

Lemma for_each_define_inv {A} (now : Date) (f : A → string)
    (g : A → PartialWord) (xs : list A) (d : Dictionary.t) :
  dict_inv d →
  dict_inv (for_each (λ x, Dictionary.define now (f x) (g x)) xs d).2.
Proof.
  revert d. induction xs as [|x xs IH]; intros d Hd; [done|].
  cbn [for_each]. rewrite bind_unfold.
  pose proof (define_inv now (f x) (g x) d Hd) as Hd'.
  destruct (Dictionary.define now (f x) (g x) d) as [[[]|e] d1]; cbn in *;
    [by apply IH|done].
Qed.

(** Defining words of distinct fresh names, as [bootstrapVM] does. *)
Lemma define_all_eq (now : Date) (ws : list Word) :
  NoDup (map name ws) →
  ∀ d, (∀ word, word ∈ ws → Dictionary.words d !! name word = None) →
    ∃ d',
      for_each (λ word, Dictionary.define now (name word) (partial_of word))
        ws d = (Normal tt, d')
      ∧ Dictionary.definitionOrder d'
        = Dictionary.definitionOrder d ++ map name ws
      ∧ (∀ word, word ∈ ws → Dictionary.words d' !! name word = Some word)
      ∧ (∀ k, k ∉ map name ws →
           Dictionary.words d' !! k = Dictionary.words d !! k).
Proof.
  induction ws as [|x ws IH]; intros Hnd d Hfresh.
  - exists d. cbn. rewrite app_nil_r. split; [done|]. split; [done|].
    split; [|done]. by intros word ?%elem_of_nil.
  - cbn [map] in Hnd. apply NoDup_cons in Hnd as [Hx Hnd].
    cbn [for_each]. rewrite bind_unfold, define_eq.
    rewrite (Hfresh x) by (by left). cbn [Dictionary.is_protected].
    rewrite completeWord_partial_of.
    destruct (IH Hnd (Dictionary.mk (<[name x := x]> (Dictionary.words d))
                        (Dictionary.definitionOrder d ++ [name x])))
      as (d' & Hrun & Hord & Hin & Hout).
    { intros word Hword. cbn. rewrite lookup_insert_ne.
      - apply Hfresh. by right.
      - intros Heq. apply Hx. rewrite Heq. by apply list_elem_of_fmap_2. }
    exists d'. split; [done|]. split; [|split].
    + rewrite Hord. cbn. by rewrite <- app_assoc.
    + intros word [->|Hword]%elem_of_cons; [|by apply Hin].
      rewrite Hout by done. cbn. apply lookup_insert_eq.
    + intros k Hk. cbn [map] in Hk. apply not_elem_of_cons in Hk as [Hk1 Hk2].
      rewrite Hout by done. cbn. by rewrite lookup_insert_ne.
Qed.

Lemma core_words_nodup : NoDup (map name CoreWords).
Proof. apply (bool_decide_unpack _). vm_compute. reflexivity. Qed.

Lemma lookup_insert_is_Some_nat {A} (m : gmap nat A) (i j : nat) (x : A) :
  is_Some (<[i := x]> m !! j) → j = i ∨ is_Some (m !! j).
Proof.
  destruct (decide (i = j)) as [->|Hne]; [by left|].
  rewrite lookup_insert_ne by done. by right.
Qed.

(** [bootstrapVM] returns a VM whose objects are new, whose data stack is
    empty and whose dictionary binds exactly the core words; the VM
    satisfies its invariant when the configured depths are not negative. *)
Lemma bootstrap_ok (now : Date) (config : option VMConfig) (w : World) :
  world_inv w →
  ∃ w',
    bootstrapVM now config w
    = (Normal (VM.mk (next w) (S (next w)) (next w) false []
                 (default (mkVMConfig None None) config)), w')
    ∧ world_inv w'
    ∧ (0 <= default 256 (config ≫= stackDepth) →
       0 <= default 256 (config ≫= returnStackDepth) →
       vm_inv (VM.mk (next w) (S (next w)) (next w) false []
                 (default (mkVMConfig None None) config)) w')
    ∧ live (VM.mk (next w) (S (next w)) (next w) false []
              (default (mkVMConfig None None) config)) w'
    ∧ stack_at w' (next w)
      = Stack.mk [] (default 256 (config ≫= stackDepth))
    ∧ Dictionary.definitionOrder (dictionary_at w' (next w))
      = map name CoreWords
    ∧ (∀ word, word ∈ CoreWords →
         Dictionary.words (dictionary_at w' (next w)) !! name word = Some word)
    ∧ (∀ k, k ∉ map name CoreWords →
         Dictionary.words (dictionary_at w' (next w)) !! k = None)
    ∧ (∀ l', (l' < next w)%nat →
         stack_at w' l' = stack_at w l'
         ∧ dictionary_at w' l' = dictionary_at w l').
Proof.
  intros [Hws Hwd].
  set (l := next w) in *.
  set (vm := VM.mk l (S l) l false [] (default (mkVMConfig None None) config)).
  set (w0 := mkWorld
       (<[S l := Stack.mk [] (default 256 (config ≫= returnStackDepth))]>
          (<[l := Stack.mk [] (default 256 (config ≫= stackDepth))]>
             (stacks w)))
       (<[l := Dictionary.new]> (dictionaries w))
       (S (S l))).
  assert (Hnew : VM.new config w = (Normal vm, w0)) by reflexivity.
  assert (F3 : dictionaries w0 !! l = Some Dictionary.new)
    by apply lookup_insert_eq.
  destruct (define_all_eq now CoreWords core_words_nodup Dictionary.new)
    as (d' & Hrun & Hord & Hin & Hout).
  { intros word _. apply lookup_empty. }
  pose proof (for_each_define_inv now name partial_of CoreWords
                Dictionary.new new_dict_inv) as Hinv.
  rewrite Hrun in Hinv. cbn [snd] in Hinv.
  exists (set_dictionary l d' w0).
  assert (Hd' : dictionary_at (set_dictionary l d' w0) l = d')
    by apply dictionary_at_set_dictionary.
  assert (Hlive : live vm (set_dictionary l d' w0)).
  { repeat split; cbn.
    - rewrite lookup_insert_ne by lia. rewrite lookup_insert_eq. eauto.
    - rewrite lookup_insert_eq. eauto.
    - rewrite lookup_insert_eq. eauto. }
  split; [|split; [|split; [|split; [|split; [|split; [|split; [|split]]]]]]].
  - unfold bootstrapVM. rewrite bind_unfold, Hnew. cbv beta iota.
    rewrite bind_unfold.
    rewrite (on_dictionary_for_each (VM.dictionary vm)
               (λ word, Dictionary.define now (name word) (partial_of word)))
      by (change (VM.dictionary vm) with l; rewrite F3; eauto).
    change (VM.dictionary vm) with l.
    rewrite (dictionary_at_lookup _ _ _ F3), Hrun. reflexivity.
  - split; cbn.
    + intros l0 [->|[->|H]%lookup_insert_is_Some_nat]%lookup_insert_is_Some_nat;
        [lia|lia|]. apply Hws in H. fold l in H. lia.
    + intros l0 [->|[->|H]%lookup_insert_is_Some_nat]%lookup_insert_is_Some_nat;
        [lia|lia|]. apply Hwd in H. fold l in H. lia.
  - intros Hd0 Hr0.
    assert (S1 : stack_at (set_dictionary l d' w0) l
                 = Stack.mk [] (default 256 (config ≫= stackDepth))).
    { apply stack_at_lookup. cbn. rewrite lookup_insert_ne by lia.
      apply lookup_insert_eq. }
    assert (S2 : stack_at (set_dictionary l d' w0) (S l)
                 = Stack.mk [] (default 256 (config ≫= returnStackDepth))).
    { apply stack_at_lookup. cbn. apply lookup_insert_eq. }
    split; unfold dictionary_of; cbn [VM.dataStack VM.returnStack VM.dictionary
                                      VM.config vm].
    + exact Hlive.
    + by rewrite Hd'.
    + rewrite S1. unfold stack_inv. cbn. lia.
    + rewrite S2. unfold stack_inv. cbn. lia.
    + rewrite S1. cbn. by destruct config.
    + rewrite S2. cbn. by destruct config.
  - exact Hlive.
  - apply stack_at_lookup. cbn. rewrite lookup_insert_ne by lia.
    apply lookup_insert_eq.
  - by rewrite Hd', Hord.
  - intros word Hword. rewrite Hd'. by apply Hin.
  - intros k Hk. rewrite Hd', Hout by done. apply lookup_empty.
  - intros l' Hl'. split.
    + unfold stack_at. cbn. by rewrite !lookup_total_insert_ne by lia.
    + unfold dictionary_at. cbn. by rewrite !lookup_total_insert_ne by lia.
Qed.

Lemma empty_world_inv : world_inv empty_world.
Proof. split; intros l [x Hx]; cbn in Hx; by rewrite lookup_empty in Hx. Qed.

Lemma boot_inv : world_inv boot_world ∧ vm_inv boot_vm boot_world.
Proof.
  destruct (bootstrap_ok 1 None empty_world empty_world_inv)
    as (w' & Hrun & Hw & Hvm & _).
  unfold boot_world. rewrite Hrun. split; [done|]. by apply Hvm.
Qed.



(** ** JSON *)






Lemma JSON_stringify_not_native (xs : list string) :
  JSON_stringify xs ≠ "__NATIVE__".
Proof. unfold JSON_stringify. cbn [string_of_list_ascii]. discriminate. Qed.

(** ** Serialize and deserialize *)

Lemma serialize_word_eq (vm : VM.t) (n : string) (w : World) (word : Word) :
  Dictionary.words (dictionary_of vm w) !! n = Some word →
  VM.serialize_word vm n w = (Normal (serialized word), w).
Proof.
  intros H. unfold VM.serialize_word.
  rewrite bind_unfold, on_dictionary_find. fold (dictionary_of vm w).
  by rewrite H.
Qed.

Lemma omap_cons_Some {A B} (f : A → option B) (x : A) (y : B) (l : list A) :
  f x = Some y → omap f (x :: l) = y :: omap f l.
Proof. intros H. cbn. by rewrite H. Qed.

Lemma map_each_serialize (vm : VM.t) (w : World) (names : list string) :
  (∀ n, n ∈ names → is_Some (Dictionary.words (dictionary_of vm w) !! n)) →
  map_each (VM.serialize_word vm) names w
  = (Normal (map serialized
               (omap (λ n, Dictionary.words (dictionary_of vm w) !! n) names)),
     w).
Proof.
  induction names as [|n names IH]; intros H; [reflexivity|].
  destruct (H n) as [word Hword]; [by left|].
  cbn [map_each]. rewrite (omap_cons_Some _ n word) by done. cbn [map].
  rewrite bind_unfold, (serialize_word_eq vm n w word Hword).
  rewrite bind_unfold, IH by (intros n' Hn'; apply H; by right).
  reflexivity.
Qed.

Lemma user_names_lookup (d : Dictionary.t) (n : string) :
  n ∈ user_names d →
  ∃ word, Dictionary.words d !! n = Some word ∧ category word = USER.
Proof.
  unfold user_names. rewrite list_elem_of_In, filter_In.
  intros [_ H]. unfold Dictionary.has_category in H.
  destruct (Dictionary.words d !! n) as [word|]; [|done].
  exists word. split; [done|]. by apply bool_decide_eq_true in H.
Qed.

Lemma serialize_eq (now : Date) (vm : VM.t) (w : World) :
  VM.serialize now vm w
  = (Normal (mkVMState "0.1.0" now (snapshot_of vm w)
               (map serialized (user_words (dictionary_of vm w)))
               (VM.config vm)), w).
Proof.
  unfold VM.serialize.
  rewrite bind_unfold, on_dictionary_list, list_eq. cbv beta iota. cbn [fst].
  fold (dictionary_of vm w). fold (user_names (dictionary_of vm w)).
  rewrite bind_unfold, map_each_serialize.
  - rewrite bind_unfold, on_stack_snapshot. reflexivity.
  - intros n Hn. apply user_names_lookup in Hn as (word & -> & _). eauto.
Qed.

Lemma user_words_spec (d : Dictionary.t) (word : Word) :
  dict_inv d →
  word ∈ user_words d
  ↔ Dictionary.words d !! name word = Some word ∧ category word = USER.
Proof.
  intros Hd. unfold user_words. rewrite list_elem_of_omap. split.
  - intros (n & Hn & Hword). apply user_names_lookup in Hn as (word' & H & Hc).
    rewrite H in Hword. injection Hword as ->.
    by rewrite (inv_name _ Hd _ _ H).
  - intros [Hword Hc]. exists (name word). split; [|done].
    unfold user_names. rewrite list_elem_of_In, filter_In, <- list_elem_of_In.
    split.
    + apply (inv_dom _ Hd). eauto.
    + unfold Dictionary.has_category. rewrite Hword.
      by apply bool_decide_eq_true.
Qed.

Lemma user_words_names (d : Dictionary.t) :
  dict_inv d → map name (user_words d) = user_names d.
Proof.
  intros Hd. unfold user_words.
  assert (H : ∀ n, n ∈ user_names d →
                ∃ word, Dictionary.words d !! n = Some word ∧ name word = n).
  { intros n (word & Hw & _)%user_names_lookup. exists word.
    split; [done|]. by apply (inv_name _ Hd). }
  induction (user_names d) as [|n names IH]; [reflexivity|].
  destruct (H n) as (word & Hw & Hn); [by left|].
  rewrite (omap_cons_Some _ n word) by done. cbn [map].
  rewrite Hn, IH; [done|].
  intros n' Hn'. apply H. by right.
Qed.

Lemma user_words_nodup (d : Dictionary.t) :
  dict_inv d → NoDup (map name (user_words d)).
Proof.
  intros Hd. rewrite user_words_names by done. unfold user_names.
  apply NoDup_ListNoDup, List.NoDup_filter, NoDup_ListNoDup, Hd.
Qed.






(** ** Checking the invariants of a given store by evaluation *)

Lemma map_Forall_check `{Countable K} {A} (P : K → A → Prop)
    `{∀ k a, Decision (P k a)} (m : gmap K A) :
  bool_decide (map_Forall P m) = true →
  ∀ k a, m !! k = Some a → P k a.
Proof. intros Hm%bool_decide_eq_true. exact Hm. Qed.

Lemma dict_inv_check (d : Dictionary.t) :
  bool_decide (NoDup (Dictionary.definitionOrder d)) = true →
  bool_decide (dom (Dictionary.words d)
               = list_to_set (Dictionary.definitionOrder d)) = true →
  bool_decide (map_Forall (λ key word, name word = key) (Dictionary.words d))
  = true →
  dict_inv d.
Proof.
  intros Hnd%bool_decide_eq_true Hdom%bool_decide_eq_true Hname.
  split; [done| |exact (map_Forall_check _ _ Hname)].
  intros key. by rewrite <- elem_of_dom, Hdom, elem_of_list_to_set.
Qed.

Lemma world_inv_check (w : World) :
  bool_decide (map_Forall (λ l _, (l < next w)%nat) (stacks w)) = true →
  bool_decide (map_Forall (λ l _, (l < next w)%nat) (dictionaries w)) = true →
  world_inv w.
Proof.
  intros Hs Hd. split; intros l [x Hx].
  - by apply (map_Forall_check _ _ Hs l x).
  - by apply (map_Forall_check _ _ Hd l x).
Qed.

Lemma live_check (vm : VM.t) (w : World) :
  bool_decide (is_Some (stacks w !! VM.dataStack vm)) = true →
  bool_decide (is_Some (stacks w !! VM.returnStack vm)) = true →
  bool_decide (is_Some (dictionaries w !! VM.dictionary vm)) = true →
  live vm w.
Proof. intros ?%bool_decide_eq_true ?%bool_decide_eq_true ?%bool_decide_eq_true. done. Qed.

Lemma source_world_inv : world_inv source_world ∧ vm_inv boot_vm source_world.
Proof.
  split; [apply world_inv_check; vm_compute; reflexivity|].
  split.
  - apply live_check; vm_compute; reflexivity.
  - apply dict_inv_check; vm_compute; reflexivity.
  - unfold stack_inv. vm_compute. discriminate.
  - unfold stack_inv. vm_compute. discriminate.
  - vm_compute. reflexivity.
  - vm_compute. reflexivity.
Qed.

Lemma big_world_inv : world_inv big_world ∧ vm_inv big_vm big_world.
Proof.
  split; [apply world_inv_check; vm_compute; reflexivity|].
  split.
  - apply live_check; vm_compute; reflexivity.
  - apply dict_inv_check; vm_compute; reflexivity.
  - unfold stack_inv. vm_compute. discriminate.
  - unfold stack_inv. vm_compute. discriminate.
  - vm_compute. reflexivity.
  - vm_compute. reflexivity.
Qed.



(** The other way a restore can fail: a VM that was not bootstrapped may
    have a USER word under the name of a core word, which the target
    protects. *)
Lemma restore_meets_protected_word :
  let src := (VM.new None empty_world) in
  let w1 := (on_dictionary 0
               (Dictionary.define 5 "DUP"
                  (mkPartialWord None None (Some (Compiled ["1"])) None None
                     None None)) src.2).2 in
  let w2 := (bootstrapVM 6 None w1).2 in
  (VM.serialize 7 boot_vm w2).1
  = Normal (mkVMState "0.1.0" 7 []
              [mkSerializedWord "DUP" "( -- )" (JSON_stringify ["1"]) false
                 (mkWordMetadata 5 0 None None)]
              (mkVMConfig None None))
  ∧ ∀ state, (VM.serialize 7 boot_vm w2).1 = Normal state →
      (VM.deserialize 8 fresh_vm state w2).1
      = Throw (Error "Cannot redefine protected word: DUP").
Proof.
  cbv zeta. split; [vm_compute; reflexivity|].
  intros state Hs. rewrite serialize_eq in Hs. cbn [fst] in Hs.
  apply Normal_inj in Hs. subst state. vm_compute. reflexivity.
Qed.

(** ** The tokenizer *)

Lemma list_ascii_of_string_app (a b : string) :
  list_ascii_of_string (a ++ b) = list_ascii_of_string a ++ list_ascii_of_string b.
Proof. induction a as [|c a IH]; [done|]. simpl. by rewrite IH. Qed.

Lemma string_of_list_ascii_app (a b : list ascii) :
  string_of_list_ascii (a ++ b)
  = (string_of_list_ascii a ++ string_of_list_ascii b)%string.
Proof. induction a as [|c a IH]; [done|]. simpl. by rewrite IH. Qed.

Lemma length_string_of_list_ascii (cs : list ascii) :
  String.length (string_of_list_ascii cs) = length cs.
Proof. induction cs as [|c cs IH]; [done|]. simpl. by rewrite IH. Qed.

Lemma split_whitespace_sep (s : list ascii) :
  List.filter (λ token, (0 <? String.length token)%nat)
    (map string_of_list_ascii (split_whitespace true [] s))
  = tokens_from [] s.
Proof.
  unfold tokens_from. destruct s as [|c r]; [done|].
  cbn [split_whitespace]. destruct (is_whitespace c); [|done]. done.
Qed.

Lemma tokens_from_nil (cur : list ascii) :
  tokens_from cur []
  = match cur with
    | [] => []
    | _ => [string_of_list_ascii (rev cur)]
    end.
Proof.
  unfold tokens_from. cbn [split_whitespace map List.filter].
  rewrite length_string_of_list_ascii, length_rev.
  by destruct cur.
Qed.

Lemma tokens_from_cons (cur : list ascii) (c : ascii) (r : list ascii) :
  tokens_from cur (c :: r)
  = if is_whitespace c then tokens_from cur [] ++ tokens_from [] r
    else tokens_from (c :: cur) r.
Proof.
  rewrite tokens_from_nil. unfold tokens_from at 1. cbn [split_whitespace].
  destruct (is_whitespace c); [|done].
  cbn [map List.filter]. rewrite split_whitespace_sep.
  rewrite length_string_of_list_ascii, length_rev.
  by destruct cur.
Qed.

Lemma tokens_from_app (cur a : list ascii) (c : ascii) (b : list ascii) :
  is_whitespace c = true →
  tokens_from cur (a ++ c :: b) = tokens_from cur a ++ tokens_from [] b.
Proof.
  intros Hc. revert cur. induction a as [|x a IH]; intros cur.
  - cbn [app]. by rewrite tokens_from_cons, Hc.
  - cbn [app]. rewrite !tokens_from_cons. destruct (is_whitespace x).
    + by rewrite IH, app_assoc.
    + apply IH.
Qed.

Lemma tokens_from_blank (cur w : list ascii) :
  Forall (λ c, is_whitespace c = true) w →
  tokens_from cur w = tokens_from cur [].
Proof.
  intros Hw. revert cur. induction Hw as [|c w Hc _ IH]; intros cur; [done|].
  rewrite tokens_from_cons, Hc, IH, tokens_from_nil. apply app_nil_r.
Qed.

Lemma tokens_from_app_blank (cur s w : list ascii) :
  Forall (λ c, is_whitespace c = true) w →
  tokens_from cur (s ++ w) = tokens_from cur s.
Proof.
  intros Hw. revert cur. induction s as [|x s IH]; intros cur.
  - by apply tokens_from_blank.
  - cbn [app]. rewrite !tokens_from_cons. destruct (is_whitespace x).
    + by rewrite IH.
    + apply IH.
Qed.

Lemma tokens_from_drop_whitespace (s : list ascii) :
  tokens_from [] (drop_whitespace s) = tokens_from [] s.
Proof.
  induction s as [|c s IH]; [done|].
  cbn [drop_whitespace]. rewrite (tokens_from_cons [] c s).
  destruct (is_whitespace c) eqn:Hc; [by rewrite IH|].
  by rewrite tokens_from_cons, Hc.
Qed.

Lemma drop_whitespace_split (s : list ascii) :
  ∃ w, Forall (λ c, is_whitespace c = true) w ∧ s = w ++ drop_whitespace s.
Proof.
  induction s as [|c s (w & Hw & IH)]; [by exists []|].
  cbn [drop_whitespace]. destruct (is_whitespace c) eqn:Hc.
  - exists (c :: w). split; [by constructor|]. cbn. by rewrite <- IH.
  - by exists [].
Qed.

Lemma tokens_from_trim (s : list ascii) :
  tokens_from [] (trim s) = tokens_from [] s.
Proof.
  unfold trim. rewrite <- (tokens_from_drop_whitespace s).
  destruct (drop_whitespace_split (rev (drop_whitespace s))) as (w & Hw & E).
  rewrite <- (rev_involutive (drop_whitespace s)) at 2.
  rewrite E at 2. rewrite rev_app_distr.
  symmetry. apply tokens_from_app_blank. by apply Forall_rev.
Qed.

(** [parse] is the plain tokenizer: trimming first changes nothing. *)
Lemma parse_eq (code : string) :
  VM.parse code = tokens_from [] (list_ascii_of_string code).
Proof. unfold VM.parse. apply tokens_from_trim. Qed.

Lemma tokens_from_token_like (cur s : list ascii) :
  Forall (λ c, is_whitespace c = false) cur →
  Forall token_like (tokens_from cur s).
Proof.
  revert cur. induction s as [|c s IH]; intros cur Hcur.
  - rewrite tokens_from_nil. destruct cur as [|x cur]; [done|].
    constructor; [|done]. split.
    + intros E. apply (f_equal String.length) in E.
      rewrite length_string_of_list_ascii, length_rev in E. done.
    + rewrite list_ascii_of_string_of_list_ascii. by apply Forall_rev.
  - rewrite tokens_from_cons. destruct (is_whitespace c) eqn:Hc.
    + apply Forall_app. split; [|by apply IH].
      rewrite tokens_from_nil. destruct cur as [|x cur]; [done|].
      constructor; [|done]. split.
      * intros E. apply (f_equal String.length) in E.
        rewrite length_string_of_list_ascii, length_rev in E. done.
      * rewrite list_ascii_of_string_of_list_ascii. by apply Forall_rev.
    + apply IH. by constructor.
Qed.

Lemma tokens_from_token (t cur rest : list ascii) :
  Forall (λ c, is_whitespace c = false) t →
  tokens_from cur (t ++ rest) = tokens_from (rev t ++ cur) rest.
Proof.
  intros Ht. revert cur. induction Ht as [|c t Hc _ IH]; intros cur; [done|].
  cbn [app]. rewrite tokens_from_cons, Hc, IH. cbn [rev].
  by rewrite <- app_assoc.
Qed.

Lemma tokens_from_nonempty (cur s : list ascii) :
  cur ≠ [] → tokens_from cur s ≠ [].
Proof.
  revert cur. induction s as [|c s IH]; intros cur Hcur.
  - rewrite tokens_from_nil. by destruct cur.
  - rewrite tokens_from_cons. destruct (is_whitespace c).
    + rewrite tokens_from_nil. by destruct cur.
    + by apply IH.
Qed.

(** X1. Every token that [parse] returns is non-empty and contains no
    white space, whatever the text. *)
Theorem parse_tokens_clean (code : string) :
  Forall token_like (VM.parse code).
Proof. rewrite parse_eq. by apply tokens_from_token_like. Qed.

(** X2. White space only separates: the tokens of two texts joined by a
    white-space code unit are the tokens of the first followed by the
    tokens of the second. *)
Theorem parse_app (a : string) (c : ascii) (b : string) :
  is_whitespace c = true →
  VM.parse (a ++ String c b) = VM.parse a ++ VM.parse b.
Proof.
  intros Hc. rewrite !parse_eq, list_ascii_of_string_app. cbn.
  by apply tokens_from_app.
Qed.

Lemma parse_app_witness :
  is_whitespace "010"%char = true
  ∧ VM.parse ("5 3" ++ String "010"%char " + ")
    = VM.parse "5 3" ++ VM.parse " + ".
Proof.
  split; [reflexivity|]. apply (parse_app "5 3" "010"%char " + ").
  reflexivity.
Defined.

Lemma tokens_from_join (tokens : list string) :
  Forall token_like tokens →
  tokens_from [] (list_ascii_of_string (String.concat " " tokens)) = tokens.
Proof.
  intros Htokens.
  induction Htokens as [|t ts [Ht1 Ht2] Hts IH]; [done|].
  assert (Hone : ∀ rest,
            tokens_from [] (list_ascii_of_string t ++ rest)
            = tokens_from (rev (list_ascii_of_string t)) rest).
  { intros rest. rewrite tokens_from_token by done. by rewrite app_nil_r. }
  assert (Hrev : rev (list_ascii_of_string t) ≠ []).
  { intros E. apply (f_equal (@length _)) in E. rewrite length_rev in E.
    destruct t; [done|]. done. }
  destruct ts as [|t' ts].
  - cbn [String.concat].
    rewrite <- (app_nil_r (list_ascii_of_string t)), Hone, tokens_from_nil.
    destruct (rev (list_ascii_of_string t)) eqn:E; [done|].
    by rewrite <- E, rev_involutive, string_of_list_ascii_of_string.
  - change (String.concat " " (t :: t' :: ts))
      with (t ++ String " "%char (String.concat " " (t' :: ts)))%string.
    rewrite list_ascii_of_string_app. cbn [list_ascii_of_string].
    rewrite Hone, tokens_from_cons. cbn [is_whitespace].
    change (is_whitespace " "%char) with true. cbn iota.
    rewrite IH, tokens_from_nil.
    destruct (rev (list_ascii_of_string t)) eqn:E; [done|].
    by rewrite <- E, rev_involutive, string_of_list_ascii_of_string.
Qed.

(** X3. Joining tokens with single spaces and parsing gives the tokens
    back. *)
Theorem parse_join (tokens : list string) :
  Forall token_like tokens →
  VM.parse (String.concat " " tokens) = tokens.
Proof.
  intros Htokens. rewrite parse_eq. by apply tokens_from_join.
Qed.

Lemma parse_join_witness :
  Forall token_like ["5"; "DUP"; "*"]
  ∧ VM.parse (String.concat " " ["5"; "DUP"; "*"]) = ["5"; "DUP"; "*"].
Proof.
  assert (H : Forall token_like ["5"; "DUP"; "*"]).
  { repeat constructor; done. }
  split; [exact H|]. exact (parse_join ["5"; "DUP"; "*"] H).
Defined.

(** X4. [parse] returns no token exactly for the texts that are empty or
    all white space. *)
Theorem parse_nil_iff_blank (code : string) :
  VM.parse code = [] ↔ blank code.
Proof.
  rewrite parse_eq. unfold blank.
  induction (list_ascii_of_string code) as [|c s IH]; [done|].
  rewrite tokens_from_cons. destruct (is_whitespace c) eqn:Hc.
  - rewrite tokens_from_nil. cbn [app]. rewrite IH. split.
    + intros H. by constructor.
    + intros H. by inversion H.
  - split.
    + intros H. by destruct (tokens_from_nonempty [c] s).
    + intros H. inversion H; congruence.
Qed.

(** ** The core words on the stack *)

Lemma peek_empty (m : Z) :
  Stack.peek (Stack.mk [] m) = (Throw StackUnderflowError, Stack.mk [] m).
Proof. reflexivity. Qed.

Lemma push_mk_ok (v : StackValue) (vs : list StackValue) (m : Z) :
  Z.of_nat (length vs) < m →
  Stack.push v (Stack.mk vs m) = (Normal tt, Stack.mk (vs ++ [v]) m).
Proof. intros H. by rewrite push_ok. Qed.

Lemma push_mk_full (v : StackValue) (vs : list StackValue) (m : Z) :
  m <= Z.of_nat (length vs) →
  Stack.push v (Stack.mk vs m) = (Throw StackOverflowError, Stack.mk vs m).
Proof. intros H. by rewrite push_full. Qed.

Lemma snoc_cases {A} (l : list A) : l = [] ∨ ∃ l' x, l = l' ++ [x].
Proof. destruct l as [|x l] using rev_ind; [by left|right; eauto]. Qed.

(** One step of a native body on a stack whose top values are known. *)
Ltac stack_step :=
  first
    [ rewrite bind_unfold
    | rewrite pop_snoc
    | rewrite peek_snoc
    | rewrite pop_empty
    | rewrite peek_empty
    | rewrite push_mk_ok by (rewrite ?length_app; cbn [length]; lia)
    | rewrite push_mk_full by (rewrite ?length_app; cbn [length]; lia)
    | progress cbn [mret SE_ret se_ret] ].

Ltac stack_run := repeat stack_step; cbn [mret SE_ret se_ret].
Lemma split_top {A} (k : nat) (l : list A) :
  (length l < k)%nat
  ∨ ∃ below args, l = below ++ args ∧ length args = k.
Proof.
  destruct (decide (length l < k)%nat) as [H|H]; [by left|right].
  exists (take (length l - k) l), (drop (length l - k) l).
  split; [by rewrite take_drop|]. rewrite length_drop. lia.
Qed.

Ltac compute_effect :=
  repeat match goal with
    | |- context [effect_inputs ?e] =>
        let v := eval vm_compute in (effect_inputs e) in
        replace (effect_inputs e) with v by (vm_compute; reflexivity)
    | |- context [effect_outputs ?e] =>
        let v := eval vm_compute in (effect_outputs e) in
        replace (effect_outputs e) with v by (vm_compute; reflexivity)
    end.

Ltac snoc_form :=
  repeat match goal with
    | |- context [?l ++ [?a; ?b; ?c; ?d]] =>
        change (l ++ [a; b; c; d]) with (l ++ [a] ++ [b] ++ [c] ++ [d])
    | |- context [?l ++ [?a; ?b; ?c]] =>
        change (l ++ [a; b; c]) with (l ++ [a] ++ [b] ++ [c])
    | |- context [?l ++ [?a; ?b]] =>
        change (l ++ [a; b]) with (l ++ [a] ++ [b])
    end;
  rewrite ?app_assoc.

Ltac effect_cases k :=
  match goal with
  | |- context [Stack.mk ?items ?m] =>
      destruct (split_top k items) as [Hshort|(below & args & -> & Hargs)];
      [ do 5 (try destruct items as [|? items]); cbn [length] in Hshort;
        try lia
      | do 5 (try destruct args as [|? args]); cbn [length] in Hargs;
        try lia ]
  end.


Ltac effect_solve k results :=
  effect_cases k;
  [ (split; [intros _; reflexivity|split; intros; cbn [length] in *; lia]) ..
  | rewrite ?length_app in *; cbn [length] in *;
    split; [intros; lia|];
    split;
    [ intros _ Hroom; eexists _, _, results;
      split; [reflexivity|]; split; [reflexivity|];
      rewrite ?app_nil_r; snoc_form; stack_run; split; reflexivity
    | intros _ Hroom; try lia;
      match goal with
      | H : Z.of_nat (length ?b + _) <= ?m |- _ =>
          destruct (Z_lt_dec (Z.of_nat (length b + 2)) m)
      end;
      try lia; snoc_form; stack_run; reflexivity ] ].

(** X6. The stack-effect notation of every core word is accurate.  With
    fewer values on the stack than the notation names before the dashes,
    the word throws [StackUnderflowError] and leaves the stack empty; with
    enough values and room for the result, it replaces exactly that many
    values on top by as many as the notation names after the dashes and
    leaves the values below alone; with enough values but no room for the
    result it throws [StackOverflowError]. *)
Theorem core_stack_effects (word : Word) (f : SE Stack.t unit) (s : Stack.t) :
  word ∈ CoreWords → body word = Native f → stack_inv s →
  let i := effect_inputs (stackEffect word) in
  let o := effect_outputs (stackEffect word) in
  let n := length (Stack.items s) in
  ((n < i)%nat →
   f s = (Throw StackUnderflowError, Stack.mk [] (Stack.maxDepth s)))
  ∧ ((i ≤ n)%nat → Z.of_nat (n - i + o) <= Stack.maxDepth s →
     ∃ below args results,
       Stack.items s = below ++ args
       ∧ length args = i ∧ length results = o
       ∧ f s = (Normal tt, Stack.mk (below ++ results) (Stack.maxDepth s)))
  ∧ ((i ≤ n)%nat → Stack.maxDepth s < Z.of_nat (n - i + o) →
     (f s).1 = Throw StackOverflowError).
Proof.
  intros Hin Hbody Hinv. destruct s as [items m].
  unfold stack_inv in Hinv. cbn [Stack.items Stack.maxDepth] in *.
  unfold CoreWords, stackOps, arithmeticOps in Hin. cbn [app] in Hin.
  cbv zeta.
  repeat (apply elem_of_cons in Hin as [->|Hin]);
    [..|by apply elem_of_nil in Hin];
    cbn [body DUP DROP SWAP OVER ROT TWODUP TWODROP TWOSWAP
           ADD SUB MUL DIV MOD EQ LT GT LTE GTE core_word] in Hbody;
    injection Hbody as <-; unfold binary; compute_effect.
  - effect_solve 1%nat uconstr:([_; _]).
  - effect_solve 1%nat uconstr:(@nil StackValue).
  - effect_solve 2%nat uconstr:([_; _]).
  - effect_solve 2%nat uconstr:([_; _; _]).
  - effect_solve 3%nat uconstr:([_; _; _]).
  - effect_solve 2%nat uconstr:([_; _; _; _]).
  - effect_solve 2%nat uconstr:(@nil StackValue).
  - effect_solve 4%nat uconstr:([_; _; _; _]).
  - effect_solve 2%nat uconstr:([_]).
  - effect_solve 2%nat uconstr:([_]).
  - effect_solve 2%nat uconstr:([_]).
  - effect_solve 2%nat uconstr:([_]).
  - effect_solve 2%nat uconstr:([_]).
  - effect_solve 2%nat uconstr:([_]).
  - effect_solve 2%nat uconstr:([_]).
  - effect_solve 2%nat uconstr:([_]).
  - effect_solve 2%nat uconstr:([_]).
  - effect_solve 2%nat uconstr:([_]).
Qed.

Lemma core_stack_effects_witness :
  SWAP ∈ CoreWords
  ∧ stack_inv (Stack.mk [int 1; int 2; int 3] 256)
  ∧ ∃ below args results,
      [int 1; int 2; int 3] = below ++ args
      ∧ length args = 2%nat ∧ length results = 2%nat
      ∧ (b ← Stack.pop; a ← Stack.pop; Stack.push b;; Stack.push a)
          (Stack.mk [int 1; int 2; int 3] 256)
        = (Normal tt, Stack.mk (below ++ results) 256).
Proof.
  assert (Hin : SWAP ∈ CoreWords).
  { unfold CoreWords, stackOps. cbn [app].
    do 2 apply list_elem_of_further. apply list_elem_of_here. }
  assert (Hinv : stack_inv (Stack.mk [int 1; int 2; int 3] 256))
    by (unfold stack_inv; cbn; lia).
  split; [exact Hin|]. split; [exact Hinv|].
  apply (core_stack_effects SWAP _ (Stack.mk [int 1; int 2; int 3] 256)
           Hin eq_refl Hinv).
  - vm_compute. lia.
  - vm_compute. discriminate.
Defined.

(** *** Compositions of stack words *)

Ltac bodies :=
  repeat match goal with
    | H : body _ = Native _ |- _ =>
        cbn [body DUP DROP SWAP OVER ROT TWODUP TWODROP TWOSWAP
               ADD SUB MUL DIV MOD EQ LT GT LTE GTE core_word] in H;
        injection H as <-
    end;
  unfold binary; cbn [for_each].

Ltac shape k :=
  match goal with
  | |- context [Stack.mk ?items ?m] =>
      destruct (split_top k items) as [Hshort|(below & args & -> & Hargs)];
      [ do 5 (try destruct items as [|? items]); cbn [length] in Hshort;
        try lia
      | do 5 (try destruct args as [|? args]); cbn [length] in Hargs;
        try lia ];
      rewrite ?length_app in *; cbn [length] in *
  end.

Lemma swap_swap (f : SE Stack.t unit) (s : Stack.t) :
  body SWAP = Native f → stack_inv s → (2 ≤ length (Stack.items s))%nat →
  for_each (λ f, f) [f; f] s = (Normal tt, s).
Proof.
  intros Hf Hinv Hn. bodies. destruct s as [items m].
  unfold stack_inv in Hinv. cbn [Stack.items Stack.maxDepth] in *.
  shape 2%nat; try lia. snoc_form. stack_run. reflexivity.
Qed.

Lemma rot_rot_rot (f : SE Stack.t unit) (s : Stack.t) :
  body ROT = Native f → stack_inv s → (3 ≤ length (Stack.items s))%nat →
  for_each (λ f, f) [f; f; f] s = (Normal tt, s).
Proof.
  intros Hf Hinv Hn. bodies. destruct s as [items m].
  unfold stack_inv in Hinv. cbn [Stack.items Stack.maxDepth] in *.
  shape 3%nat; try lia. snoc_form. stack_run. reflexivity.
Qed.

Lemma twoswap_twoswap (f : SE Stack.t unit) (s : Stack.t) :
  body TWOSWAP = Native f → stack_inv s → (4 ≤ length (Stack.items s))%nat →
  for_each (λ f, f) [f; f] s = (Normal tt, s).
Proof.
  intros Hf Hinv Hn. bodies. destruct s as [items m].
  unfold stack_inv in Hinv. cbn [Stack.items Stack.maxDepth] in *.
  shape 4%nat; try lia. snoc_form. stack_run. reflexivity.
Qed.

Lemma dup_drop (f g : SE Stack.t unit) (s : Stack.t) :
  body DUP = Native f → body DROP = Native g →
  (1 ≤ length (Stack.items s))%nat →
  Z.of_nat (length (Stack.items s)) < Stack.maxDepth s →
  for_each (λ f, f) [f; g] s = (Normal tt, s).
Proof.
  intros Hf Hg Hn Hroom. bodies. destruct s as [items m].
  cbn [Stack.items Stack.maxDepth] in *.
  shape 1%nat; try lia. snoc_form. stack_run. reflexivity.
Qed.

Lemma twodup_over_over (f g : SE Stack.t unit) (s : Stack.t) :
  body TWODUP = Native f → body OVER = Native g → stack_inv s →
  for_each (λ f, f) [f] s = for_each (λ f, f) [g; g] s.
Proof.
  intros Hf Hg Hinv. bodies. destruct s as [items m].
  unfold stack_inv in Hinv. cbn [Stack.items Stack.maxDepth] in *.
  shape 2%nat; try reflexivity.
  destruct (Z_lt_dec (Z.of_nat (length below + 2)) m);
    [destruct (Z_lt_dec (Z.of_nat (length below + 3)) m)|];
    snoc_form; stack_run; reflexivity.
Qed.

Lemma twodrop_drop_drop (f g : SE Stack.t unit) (s : Stack.t) :
  body TWODROP = Native f → body DROP = Native g →
  for_each (λ f, f) [f] s = for_each (λ f, f) [g; g] s.
Proof.
  intros Hf Hg. bodies. destruct s as [items m].
  shape 2%nat; try reflexivity.
  snoc_form; stack_run; reflexivity.
Qed.

(** *** The operators on integers *)

Lemma Qred_inject_Z (z : Z) : Qred (inject_Z z) = inject_Z z.
Proof.
  unfold Qred, inject_Z.
  pose proof (Z.ggcd_gcd z 1) as Hg.
  pose proof (Z.ggcd_correct_divisors z 1) as Hd.
  destruct (Z.ggcd z 1) as [g [aa bb]]. cbn [fst snd] in *.
  rewrite Z.gcd_1_r in Hg. subst g. destruct Hd as [-> Hb].
  rewrite Z.mul_1_l in *. by rewrite <- Hb.
Qed.

Lemma Qred_int (q : Q) (z : Z) : (q == inject_Z z)%Q → Qred q = inject_Z z.
Proof. intros H. rewrite <- Qred_inject_Z. by apply Qred_complete. Qed.

Lemma js_add_int (a b : Z) : js_add (int a) (int b) = int (a + b).
Proof.
  unfold int. cbn [js_add ToNumber num_add]. do 2 f_equal.
  by rewrite <- inject_Z_plus, Qred_inject_Z.
Qed.

Lemma js_sub_int (a b : Z) : js_sub (int a) (int b) = int (a - b).
Proof.
  unfold int, js_sub, num_sub. cbn [ToNumber negate num_add]. do 2 f_equal.
  by rewrite <- inject_Z_opp, <- inject_Z_plus, Qred_inject_Z.
Qed.

Lemma js_mul_int (a b : Z) : js_mul (int a) (int b) = int (a * b).
Proof.
  unfold int, js_mul. cbn [ToNumber num_mul]. do 2 f_equal.
  by rewrite <- inject_Z_mult, Qred_inject_Z.
Qed.

Lemma is_zero_inject_Z (b : Z) : is_zero (inject_Z b) = (b =? 0).
Proof. reflexivity. Qed.

Lemma js_div_int (a b : Z) :
  b ≠ 0 → (b | a) → js_div (int a) (int b) = int (a / b).
Proof.
  intros Hb [k ->]. unfold int, js_div. cbn [ToNumber num_div].
  rewrite is_zero_inject_Z. destruct (Z.eqb_spec b 0) as [|_]; [done|].
  do 2 f_equal. apply Qred_int.
  rewrite Z.div_mul by done. rewrite inject_Z_mult.
  apply Qdiv_mult_l. intros E. apply Hb.
  by apply (inject_Z_injective b 0).
Qed.

Lemma truncate_div_int (a b : Z) :
  b ≠ 0 → truncate (inject_Z a / inject_Z b) = Z.quot a b.
Proof.
  intros Hb. unfold truncate, Qdiv, Qinv, Qmult, inject_Z.
  destruct b as [|p|p]; [done|..]; cbn [Qnum Qden].
  - rewrite Z.mul_1_r. by rewrite Pos.mul_1_l.
  - rewrite Pos.mul_1_l. 
    change (Z.neg p) with (- Z.pos p).
    rewrite Z.quot_opp_r by done.
    replace (a * -1) with (- a) by lia. by rewrite Z.quot_opp_l.
Qed.

Lemma js_mod_int (a b : Z) :
  b ≠ 0 → js_mod (int a) (int b) = int (Z.rem a b).
Proof.
  intros Hb. unfold int, js_mod. cbn [ToNumber num_mod].
  rewrite is_zero_inject_Z. destruct (Z.eqb_spec b 0) as [|_]; [done|].
  do 2 f_equal. apply Qred_int. rewrite truncate_div_int by done.
  rewrite <- inject_Z_mult. unfold Qminus. rewrite <- inject_Z_opp.
  rewrite <- inject_Z_plus. 
  replace (a + - (b * (a ÷ b))) with (Z.rem a b); [reflexivity|].
  pose proof (Z.quot_rem' a b). lia.
Qed.

Lemma num_lt_int (a b : Z) :
  num_lt (Finite (inject_Z a)) (Finite (inject_Z b)) = (a <? b).
Proof.
  cbn [num_lt]. unfold Qcompare, inject_Z. cbn [Qnum Qden].
  by rewrite !Z.mul_1_r.
Qed.

Lemma num_eq_int (a b : Z) :
  num_eq (Finite (inject_Z a)) (Finite (inject_Z b)) = (a =? b).
Proof.
  cbn [num_eq]. apply eq_true_iff_eq. rewrite Qeq_bool_iff, Z.eqb_eq.
  split; [apply inject_Z_injective|by intros ->].
Qed.

Lemma js_lt_int (a b : Z) : js_lt (int a) (int b) = (a <? b).
Proof. apply num_lt_int. Qed.

Lemma js_le_int (a b : Z) : js_le (int a) (int b) = (a <=? b).
Proof.
  unfold int, js_le. cbn [ToNumber]. rewrite num_lt_int, num_eq_int.
  destruct (Z.ltb_spec a b), (Z.eqb_spec a b), (Z.leb_spec a b);
    cbn; lia || reflexivity.
Qed.

Lemma js_strict_eq_int (a b : Z) : js_strict_eq (int a) (int b) = (a =? b).
Proof. apply num_eq_int. Qed.

(** ** Programs of core words *)

Lemma stacks_set_stack_is_Some (l l' : nat) (s : Stack.t) (w : World) :
  is_Some (stacks w !! l') → is_Some (stacks (set_stack l s w) !! l').
Proof.
  intros H. cbn. destruct (decide (l = l')) as [->|Hne].
  - rewrite lookup_insert_eq. eauto.
  - by rewrite lookup_insert_ne.
Qed.

Lemma live_set_stack (vm : VM.t) (l : nat) (s : Stack.t) (w : World) :
  live vm w → live vm (set_stack l s w).
Proof.
  intros (H1 & H2 & H3).
  split; [|split]; [by apply stacks_set_stack_is_Some..|done].
Qed.

(** A program whose tokens are names of native words acts on the data
    stack as the bodies of these words, one after the other. *)
Lemma run_natives (frames : nat) (vm : VM.t) (d : Dictionary.t)
    (tokens : list string) (fs : list (SE Stack.t unit)) :
  Forall2 (λ token f,
             isNaN (Number token) = true
             ∧ ∃ word, Dictionary.words d !! token = Some word
                       ∧ body word = Native f) tokens fs →
  ∀ w, dictionary_of vm w = d →
    is_Some (stacks w !! VM.dataStack vm) →
    for_each (dispatch (S frames) vm) tokens w
    = ((for_each (λ f, f) fs (stack_at w (VM.dataStack vm))).1,
       set_stack (VM.dataStack vm)
         (for_each (λ f, f) fs (stack_at w (VM.dataStack vm))).2 w).
Proof.
  induction 1 as [|token f tokens fs (Hnum & word & Hword & Hbody) _ IH];
    intros w Hd Hlive.
  - cbn. by rewrite set_stack_id.
  - cbn [for_each]. rewrite !bind_unfold.
    rewrite dispatch_word, execute_name, Hd, Hword, Hbody by done.
    rewrite on_stack_eq by done.
    destruct (f (stack_at w (VM.dataStack vm))) as [[[]|e] s1]; [|done].
    cbn [fst snd]. rewrite IH.
    + by rewrite stack_at_set_stack, set_stack_set_stack.
    + done.
    + by apply stacks_set_stack_is_Some.
Qed.

Lemma core_token (word : Word) :
  word ∈ CoreWords →
  isNaN (Number (name word)) = true ∧ VM.parse (name word) = [name word].
Proof.
  unfold CoreWords, stackOps, arithmeticOps. cbn [app]. intros Hin.
  repeat (apply elem_of_cons in Hin as [->|Hin]);
    [..|by apply elem_of_nil in Hin]; split; vm_compute; reflexivity.
Qed.

Ltac core_in :=
  unfold CoreWords, stackOps, arithmeticOps; cbn [app];
  repeat first [apply list_elem_of_here | apply list_elem_of_further].

Lemma run_core (frames : nat) (vm : VM.t) (w : World) (ws : list Word)
    (fs : list (SE Stack.t unit)) (code : string) :
  live vm w → core_bound vm w →
  Forall (λ word, word ∈ CoreWords) ws →
  Forall2 (λ word f, body word = Native f) ws fs →
  VM.parse code = map name ws →
  VM.run (S frames) vm code w
  = ((for_each (λ f, f) fs (stack_at w (VM.dataStack vm))).1,
     set_stack (VM.dataStack vm)
       (for_each (λ f, f) fs (stack_at w (VM.dataStack vm))).2 w).
Proof.
  intros Hlive Hcore Hin Hfs Hparse. rewrite run_eq, Hparse.
  apply (run_natives frames vm (dictionary_of vm w)); [|done|apply Hlive].
  clear Hparse. induction Hfs as [|word f ws fs Hbody _ IH]; [constructor|].
  apply Forall_cons in Hin as [Hword Hin].
  constructor; [|by apply IH]. split; [by apply core_token|].
  exists word. split; [by apply Hcore|done].
Qed.

Lemma stack_eta (s : Stack.t) :
  s = Stack.mk (Stack.items s) (Stack.maxDepth s).
Proof. by destruct s. Qed.

(** Brings a run of core words on a stack with known top values to the
    run of their bodies. *)
Ltac run_core_bodies ws :=
  match goal with
  | Hlive : live ?vm ?w, Hcore : core_bound ?vm ?w
    |- context [VM.run (S ?frames) ?vm ?code ?w] =>
      erewrite (run_core frames vm w ws _ code Hlive Hcore);
      [ | repeat constructor; core_in
        | repeat constructor
        | vm_compute; reflexivity ]
  end.

Ltac run_core_words ws := run_core_bodies ws; cbn [for_each].

Ltac at_items H :=
  match type of H with
  | snapshot_of ?vm ?w = ?items =>
      unfold snapshot_of in H;
      let m := fresh "m" in
      set (m := Stack.maxDepth (stack_at w (VM.dataStack vm))) in *;
      replace (stack_at w (VM.dataStack vm)) with (Stack.mk items m)
        by (subst m; rewrite <- H; symmetry; apply stack_eta)
  end.

Lemma boot_core_bound : core_bound boot_vm boot_world.
Proof.
  destruct (bootstrap_ok 1 None empty_world empty_world_inv)
    as (w' & Hboot & _ & _ & _ & _ & _ & Hin & _).
  intros word Hword. unfold boot_world. rewrite Hboot. by apply Hin.
Qed.

Lemma boot_with_live (items : list StackValue) :
  live boot_vm (boot_with items).
Proof. apply live_set_stack, boot_inv. Qed.

Lemma boot_with_core_bound (items : list StackValue) :
  core_bound boot_vm (boot_with items).
Proof. exact boot_core_bound. Qed.

Lemma boot_with_stack (items : list StackValue) :
  stack_at (boot_with items) (VM.dataStack boot_vm) = Stack.mk items 256.
Proof.
  unfold boot_with, with_items. rewrite stack_at_set_stack.
  by rewrite (inv_data_depth _ _ (proj2 boot_inv)).
Qed.

Lemma boot_with_snapshot (items : list StackValue) :
  snapshot_of boot_vm (boot_with items) = items.
Proof. unfold snapshot_of. by rewrite boot_with_stack. Qed.


(** X7. What the eight stack words compute: run on a bootstrapped VM
    with enough values and room, each succeeds and rearranges the top of
    the data stack as its notation says, leaving the rest of the store as
    it was. *)
Theorem stack_words_results (frames : nat) (vm : VM.t) (w : World)
    (below : list StackValue) (a b c d : StackValue) :
  live vm w → core_bound vm w →
  let room (k : Z) :=
    Z.of_nat (length below) + k
    <= Stack.maxDepth (stack_at w (VM.dataStack vm)) in
  (snapshot_of vm w = below ++ [a] → room 2 →
   VM.run (S frames) vm "DUP" w
   = (Normal tt, with_items vm (below ++ [a; a]) w))
  ∧ (snapshot_of vm w = below ++ [a] →
     VM.run (S frames) vm "DROP" w = (Normal tt, with_items vm below w))
  ∧ (snapshot_of vm w = below ++ [a; b] → room 2 →
     VM.run (S frames) vm "SWAP" w
     = (Normal tt, with_items vm (below ++ [b; a]) w))
  ∧ (snapshot_of vm w = below ++ [a; b] → room 3 →
     VM.run (S frames) vm "OVER" w
     = (Normal tt, with_items vm (below ++ [a; b; a]) w))
  ∧ (snapshot_of vm w = below ++ [a; b; c] → room 3 →
     VM.run (S frames) vm "ROT" w
     = (Normal tt, with_items vm (below ++ [b; c; a]) w))
  ∧ (snapshot_of vm w = below ++ [a; b] → room 4 →
     VM.run (S frames) vm "2DUP" w
     = (Normal tt, with_items vm (below ++ [a; b; a; b]) w))
  ∧ (snapshot_of vm w = below ++ [a; b] →
     VM.run (S frames) vm "2DROP" w = (Normal tt, with_items vm below w))
  ∧ (snapshot_of vm w = below ++ [a; b; c; d] → room 4 →
     VM.run (S frames) vm "2SWAP" w
     = (Normal tt, with_items vm (below ++ [c; d; a; b]) w)).
Proof.
  intros Hlive Hcore room. subst room. cbv beta. unfold with_items.
  repeat split.
  - intros Hs Hroom. run_core_words [DUP]. at_items Hs.
    snoc_form. stack_run. snoc_form. reflexivity.
  - intros Hs. run_core_words [DROP]. at_items Hs.
    snoc_form. stack_run. reflexivity.
  - intros Hs Hroom. run_core_words [SWAP]. at_items Hs.
    snoc_form. stack_run. snoc_form. reflexivity.
  - intros Hs Hroom. run_core_words [OVER]. at_items Hs.
    snoc_form. stack_run. snoc_form. reflexivity.
  - intros Hs Hroom. run_core_words [ROT]. at_items Hs.
    snoc_form. stack_run. snoc_form. reflexivity.
  - intros Hs Hroom. run_core_words [TWODUP]. at_items Hs.
    snoc_form. stack_run. snoc_form. reflexivity.
  - intros Hs. run_core_words [TWODROP]. at_items Hs.
    snoc_form. stack_run. reflexivity.
  - intros Hs Hroom. run_core_words [TWOSWAP]. at_items Hs.
    snoc_form. stack_run. snoc_form. reflexivity.
Qed.

Lemma stack_words_results_witness :
  live boot_vm (boot_with [int 1; int 2; int 3])
  ∧ core_bound boot_vm (boot_with [int 1; int 2; int 3])
  ∧ VM.run 1 boot_vm "ROT" (boot_with [int 1; int 2; int 3])
    = (Normal tt,
       with_items boot_vm [int 2; int 3; int 1]
         (boot_with [int 1; int 2; int 3])).
Proof.
  pose proof (boot_with_live [int 1; int 2; int 3]) as Hlive.
  pose proof (boot_with_core_bound [int 1; int 2; int 3]) as Hcore.
  split; [exact Hlive|]. split; [exact Hcore|].
  destruct (stack_words_results 0 boot_vm (boot_with [int 1; int 2; int 3])
              [] (int 1) (int 2) (int 3) (int 0) Hlive Hcore)
    as (_ & _ & _ & _ & Hrot & _).
  apply Hrot.
  - apply boot_with_snapshot.
  - rewrite boot_with_stack. cbn. lia.
Defined.

(** X8. Compositions of stack words on a bootstrapped VM: [SWAP SWAP],
    [ROT ROT ROT] and [2SWAP 2SWAP] leave the store exactly as it was when
    the stack holds the values they work on, as does [DUP DROP] when one
    more value fits; [2DUP] ends as [OVER OVER] does and [2DROP] as
    [DROP DROP], failures and the stack left behind included. *)
Theorem stack_words_compose (frames : nat) (vm : VM.t) (w : World) :
  live vm w → core_bound vm w →
  stack_inv (stack_at w (VM.dataStack vm)) →
  let n := length (snapshot_of vm w) in
  ((2 ≤ n)%nat → VM.run (S frames) vm "SWAP SWAP" w = (Normal tt, w))
  ∧ ((3 ≤ n)%nat → VM.run (S frames) vm "ROT ROT ROT" w = (Normal tt, w))
  ∧ ((4 ≤ n)%nat → VM.run (S frames) vm "2SWAP 2SWAP" w = (Normal tt, w))
  ∧ ((1 ≤ n)%nat →
     Z.of_nat n < Stack.maxDepth (stack_at w (VM.dataStack vm)) →
     VM.run (S frames) vm "DUP DROP" w = (Normal tt, w))
  ∧ VM.run (S frames) vm "2DUP" w = VM.run (S frames) vm "OVER OVER" w
  ∧ VM.run (S frames) vm "2DROP" w = VM.run (S frames) vm "DROP DROP" w.
Proof.
  intros Hlive Hcore Hinv n. subst n. unfold snapshot_of.
  assert (Hid : set_stack (VM.dataStack vm) (stack_at w (VM.dataStack vm)) w
                = w) by (apply set_stack_id, Hlive).
  repeat split.
  - intros Hn. run_core_bodies [SWAP; SWAP].
    rewrite (swap_swap _ _ eq_refl Hinv Hn). cbn [fst snd]. by rewrite Hid.
  - intros Hn. run_core_bodies [ROT; ROT; ROT].
    rewrite (rot_rot_rot _ _ eq_refl Hinv Hn). cbn [fst snd]. by rewrite Hid.
  - intros Hn. run_core_bodies [TWOSWAP; TWOSWAP].
    rewrite (twoswap_twoswap _ _ eq_refl Hinv Hn). cbn [fst snd].
    by rewrite Hid.
  - intros Hn Hroom. run_core_bodies [DUP; DROP].
    rewrite (dup_drop _ _ _ eq_refl eq_refl Hn Hroom). cbn [fst snd].
    by rewrite Hid.
  - run_core_bodies [TWODUP]. run_core_bodies [OVER; OVER].
    by rewrite (twodup_over_over _ _ _ eq_refl eq_refl Hinv).
  - run_core_bodies [TWODROP]. run_core_bodies [DROP; DROP].
    by rewrite (twodrop_drop_drop _ _ _ eq_refl eq_refl).
Qed.

Lemma stack_words_compose_witness :
  live boot_vm (boot_with [int 1; int 2; int 3])
  ∧ core_bound boot_vm (boot_with [int 1; int 2; int 3])
  ∧ stack_inv (stack_at (boot_with [int 1; int 2; int 3])
                 (VM.dataStack boot_vm))
  ∧ VM.run 1 boot_vm "ROT ROT ROT" (boot_with [int 1; int 2; int 3])
    = (Normal tt, boot_with [int 1; int 2; int 3]).
Proof.
  pose proof (boot_with_live [int 1; int 2; int 3]) as Hlive.
  pose proof (boot_with_core_bound [int 1; int 2; int 3]) as Hcore.
  assert (Hinv : stack_inv (stack_at (boot_with [int 1; int 2; int 3])
                              (VM.dataStack boot_vm))).
  { unfold stack_inv. rewrite boot_with_stack. cbn. lia. }
  split; [exact Hlive|]. split; [exact Hcore|]. split; [exact Hinv|].
  destruct (stack_words_compose 0 boot_vm (boot_with [int 1; int 2; int 3])
              Hlive Hcore Hinv) as (_ & Hrot & _).
  apply Hrot. rewrite boot_with_snapshot. cbn. lia.
Defined.

(** X9. Arithmetic and comparison on a bootstrapped VM whose two top
    values are integers in the range that numbers represent exactly: [+],
    [-] and [*] push the exact sum, difference and product when these are
    in the range, [/] pushes the quotient when the division is exact, [MOD]
    pushes the remainder with the sign of the dividend, and the comparison
    words push the truth value of the comparison of the integers. *)
Theorem integer_arithmetic (frames : nat) (vm : VM.t) (w : World)
    (below : list StackValue) (a b : Z) :
  live vm w → core_bound vm w →
  stack_inv (stack_at w (VM.dataStack vm)) →
  snapshot_of vm w = below ++ [int a; int b] →
  safe a → safe b →
  (safe (a + b) →
   VM.run (S frames) vm "+" w
   = (Normal tt, with_items vm (below ++ [int (a + b)]) w))
  ∧ (safe (a - b) →
     VM.run (S frames) vm "-" w
     = (Normal tt, with_items vm (below ++ [int (a - b)]) w))
  ∧ (safe (a * b) →
     VM.run (S frames) vm "*" w
     = (Normal tt, with_items vm (below ++ [int (a * b)]) w))
  ∧ (b ≠ 0 → (b | a) →
     VM.run (S frames) vm "/" w
     = (Normal tt, with_items vm (below ++ [int (a / b)]) w))
  ∧ (b ≠ 0 →
     VM.run (S frames) vm "MOD" w
     = (Normal tt, with_items vm (below ++ [int (Z.rem a b)]) w))
  ∧ VM.run (S frames) vm "=" w
    = (Normal tt, with_items vm (below ++ [VBoolean (a =? b)]) w)
  ∧ VM.run (S frames) vm "<" w
    = (Normal tt, with_items vm (below ++ [VBoolean (a <? b)]) w)
  ∧ VM.run (S frames) vm ">" w
    = (Normal tt, with_items vm (below ++ [VBoolean (b <? a)]) w)
  ∧ VM.run (S frames) vm "<=" w
    = (Normal tt, with_items vm (below ++ [VBoolean (a <=? b)]) w)
  ∧ VM.run (S frames) vm ">=" w
    = (Normal tt, with_items vm (below ++ [VBoolean (b <=? a)]) w).
Proof.
  intros Hlive Hcore Hinv Hs _ _. unfold with_items.
  unfold stack_inv in Hinv. pose proof Hs as Hlen.
  unfold snapshot_of in Hlen. rewrite Hlen, length_app in Hinv.
  cbn [length] in Hinv. clear Hlen.
  repeat split.
  - intros _. run_core_words [ADD]. unfold binary. at_items Hs.
    snoc_form. stack_run. by rewrite js_add_int.
  - intros _. run_core_words [SUB]. unfold binary. at_items Hs.
    snoc_form. stack_run. by rewrite js_sub_int.
  - intros _. run_core_words [MUL]. unfold binary. at_items Hs.
    snoc_form. stack_run. by rewrite js_mul_int.
  - intros Hb Hdiv. run_core_words [DIV]. unfold binary. at_items Hs.
    snoc_form. stack_run. by rewrite js_div_int.
  - intros Hb. run_core_words [MOD]. unfold binary. at_items Hs.
    snoc_form. stack_run. by rewrite js_mod_int.
  - run_core_words [EQ]. unfold binary. at_items Hs.
    snoc_form. stack_run. by rewrite js_strict_eq_int.
  - run_core_words [LT]. unfold binary. at_items Hs.
    snoc_form. stack_run. by rewrite js_lt_int.
  - run_core_words [GT]. unfold binary. at_items Hs.
    snoc_form. stack_run. by rewrite js_lt_int.
  - run_core_words [LTE]. unfold binary. at_items Hs.
    snoc_form. stack_run. by rewrite js_le_int.
  - run_core_words [GTE]. unfold binary. at_items Hs.
    snoc_form. stack_run. by rewrite js_le_int.
Qed.

Lemma integer_arithmetic_witness :
  live boot_vm (boot_with [int (-7); int 2])
  ∧ core_bound boot_vm (boot_with [int (-7); int 2])
  ∧ safe (-7) ∧ safe 2
  ∧ VM.run 1 boot_vm "MOD" (boot_with [int (-7); int 2])
    = (Normal tt,
       with_items boot_vm [int (-1)] (boot_with [int (-7); int 2])).
Proof.
  pose proof (boot_with_live [int (-7); int 2]) as Hlive.
  pose proof (boot_with_core_bound [int (-7); int 2]) as Hcore.
  assert (Hinv : stack_inv (stack_at (boot_with [int (-7); int 2])
                              (VM.dataStack boot_vm))).
  { unfold stack_inv. rewrite boot_with_stack. cbn. lia. }
  assert (Ha : safe (-7)) by (unfold safe; lia).
  assert (Hb : safe 2) by (unfold safe; lia).
  split; [exact Hlive|]. split; [exact Hcore|].
  split; [exact Ha|]. split; [exact Hb|].
  destruct (integer_arithmetic 0 boot_vm (boot_with [int (-7); int 2]) []
              (-7) 2 Hlive Hcore Hinv (boot_with_snapshot _) Ha Hb)
    as (_ & _ & _ & _ & Hmod & _).
  apply Hmod. lia.
Defined.



(** X5. Programs compose: running two texts joined by white space is
    running the first and then, if it did not throw, the second; a text of
    white space only does nothing at all. *)
Theorem run_sequential (frames : nat) (vm : VM.t) (a : string) (c : ascii)
    (b : string) (w : World) :
  (is_whitespace c = true →
   VM.run frames vm (a ++ String c b) w
   = match VM.run frames vm a w with
     | (Normal _, w') => VM.run frames vm b w'
     | (Throw e, w') => (Throw e, w')
     end)
  ∧ (blank a → VM.run frames vm a w = (Normal tt, w)).
Proof.
  split.
  - intros Hc. rewrite !run_eq, !parse_eq, list_ascii_of_string_app.
    cbn [list_ascii_of_string]. rewrite tokens_from_app by done.
    rewrite for_each_app. by destruct (for_each _ _ w) as [[[]|e] w'].
  - intros Ha. rewrite run_eq.
    assert (VM.parse a = []) as ->; [|done].
    rewrite parse_eq. unfold blank in Ha.
    by rewrite tokens_from_blank.
Qed.

Lemma run_sequential_witness :
  is_whitespace " "%char = true
  ∧ VM.run 2 boot_vm ("5 3" ++ String " "%char "+") boot_world
    = match VM.run 2 boot_vm "5 3" boot_world with
      | (Normal _, w') => VM.run 2 boot_vm "+" w'
      | (Throw e, w') => (Throw e, w')
      end.
Proof.
  split; [reflexivity|].
  apply (run_sequential 2 boot_vm "5 3" " "%char "+" boot_world).
  reflexivity.
Defined.

(** ** The dictionary under sequences of calls *)

Lemma dict_eta (d : Dictionary.t) :
  Dictionary.mk (Dictionary.words d) (Dictionary.definitionOrder d) = d.
Proof. by destruct d. Qed.

Lemma remove_first_snoc (x : string) (xs : list string) :
  x ∉ xs → remove_first x (xs ++ [x]) = xs.
Proof.
  induction xs as [|y ys IH]; intros Hx; cbn.
  - by rewrite decide_True.
  - apply not_elem_of_cons in Hx as [Hne Hx].
    rewrite decide_False by done. by rewrite IH.
Qed.

Lemma remove_first_absent (x : string) (xs : list string) :
  x ∉ xs → remove_first x xs = xs.
Proof.
  induction xs as [|y ys IH]; intros Hx; cbn; [done|].
  apply not_elem_of_cons in Hx as [Hne Hx].
  rewrite decide_False by done. by rewrite IH.
Qed.

Lemma dict_perform_inv (op : DictOp) (d : Dictionary.t) :
  dict_inv d → dict_inv (dict_perform op d).2.
Proof.
  intros Hd. destruct op as [now name word|name|name|filter]; cbn.
  - by apply define_inv.
  - by apply forget_inv.
  - done.
  - by destruct filter.
Qed.

(** X11. The invariant of the dictionary holds after any sequence of
    [define], [forget], [find] and [list] calls on a new dictionary,
    failed calls included: [list()] holds every defined name exactly once
    and nothing else, and every word is stored under its own name. *)
Theorem dictionary_invariant (ops : list DictOp) :
  let d := dict_perform_all ops Dictionary.new in
  ∃ names,
    Dictionary.list None d = (Normal names, d)
    ∧ NoDup names
    ∧ (∀ key, key ∈ names
              ↔ ∃ word, Dictionary.find key d = (Normal (Some word), d))
    ∧ (∀ key word, Dictionary.find key d = (Normal (Some word), d) →
                    name word = key).
Proof.
  intros d.
  assert (Hd : dict_inv d).
  { subst d. generalize new_dict_inv. generalize Dictionary.new.
    induction ops as [|op ops IH]; intros d Hd; [done|].
    cbn [dict_perform_all]. by apply IH, dict_perform_inv. }
  exists (Dictionary.definitionOrder d). rewrite list_eq.
  split; [done|]. split; [apply Hd|]. split.
  - intros key. rewrite (inv_dom _ Hd key). setoid_rewrite find_eq.
    split.
    + intros [word Hword]. exists word. by rewrite Hword.
    + intros [word [= Hword]]. by rewrite Hword.
  - intros key word. rewrite find_eq. intros [= Hword].
    by apply (inv_name _ Hd).
Qed.

(** X12. [define] and [forget] are atomic and fail only on protection or
    absence: [define] returns exactly when the name is not bound to a
    protected word, [forget] exactly when the name is bound to an
    unprotected word, and a call that throws leaves the dictionary as it
    was. *)
Theorem dictionary_calls_atomic (now : Date) (name : string)
    (word : PartialWord) (d : Dictionary.t) :
  ((Dictionary.define now name word d).1 = Normal tt
   ↔ ¬ ∃ existing, Dictionary.words d !! name = Some existing
                    ∧ protected existing = true)
  ∧ ((Dictionary.forget name d).1 = Normal tt
     ↔ ∃ existing, Dictionary.words d !! name = Some existing
                    ∧ protected existing = false)
  ∧ (∀ e, (Dictionary.define now name word d).1 = Throw e →
          (Dictionary.define now name word d).2 = d)
  ∧ (∀ e, (Dictionary.forget name d).1 = Throw e →
          (Dictionary.forget name d).2 = d).
Proof.
  rewrite define_eq, forget_eq.
  destruct (Dictionary.words d !! name) as [existing|] eqn:Hfind;
    cbn [Dictionary.is_protected].
  - destruct (protected existing) eqn:Hp; cbn [fst snd].
    + split; [|split; [|done]].
      * split; [done|]. intros H. destruct H. eauto.
      * split; [done|]. intros (? & [= <-] & ?). congruence.
    + split; [|split; [|done]].
      * split; [|done]. intros _ (? & [= <-] & ?). congruence.
      * split; [eauto|done].
  - cbn [fst snd]. split; [|split; [|done]].
    + split; [|done]. by intros _ (? & ? & _).
    + split; [done|]. by intros (? & ? & _).
Qed.

(** X13. Defining a name that is not bound and forgetting it again gives
    back the dictionary exactly, unless the definition asked for
    protection: then [forget] throws and the word stays. *)
Theorem define_forget_round_trip (now : Date) (name : string)
    (word : PartialWord) (d : Dictionary.t) :
  dict_inv d → Dictionary.words d !! name = None →
  (p_protected word ≠ Some true →
   (Dictionary.define now name word;; Dictionary.forget name) d
   = (Normal tt, d))
  ∧ (p_protected word = Some true →
     ∃ d',
       (Dictionary.define now name word;; Dictionary.forget name) d
       = (Throw (Error ("Cannot forget protected word: " ++ name)), d')
       ∧ Dictionary.words d' !! name
         = Some (Dictionary.completeWord now name word)).
Proof.
  intros Hd Hfind.
  assert (Hnot : name ∉ Dictionary.definitionOrder d).
  { rewrite (inv_dom _ Hd), Hfind. by intros [? ?]. }
  rewrite bind_unfold, define_eq, Hfind. cbn [Dictionary.is_protected].
  rewrite forget_eq. cbn [Dictionary.words Dictionary.definitionOrder].
  rewrite lookup_insert_eq.
  cbn [protected Dictionary.completeWord].
  split.
  - intros Hp.
    assert (default false (p_protected word) = false) as ->.
    { destruct (p_protected word) as [[]|]; done. }
    rewrite delete_insert_eq, delete_id by done.
    by rewrite remove_first_snoc, dict_eta.
  - intros ->. cbn [default]. eexists. split; [done|].
    cbn. by rewrite lookup_insert_eq.
Qed.

Lemma define_forget_round_trip_witness :
  dict_inv square_dictionary
  ∧ Dictionary.words square_dictionary !! "CUBE" = None
  ∧ (Dictionary.define 7 "CUBE"
       (mkPartialWord None None (Some (Compiled ["DUP"; "SQUARE"; "*"]))
          None None None None);;
     Dictionary.forget "CUBE") square_dictionary
    = (Normal tt, square_dictionary).
Proof.
  assert (Hd : dict_inv square_dictionary)
    by (apply define_inv, new_dict_inv).
  assert (Hfind : Dictionary.words square_dictionary !! "CUBE" = None)
    by (vm_compute; reflexivity).
  split; [exact Hd|]. split; [exact Hfind|].
  apply (define_forget_round_trip 7 "CUBE" _ square_dictionary Hd Hfind).
  discriminate.
Defined.
(** X14. [forget] removes a word for good: afterwards [find] returns
    [null], the other names keep their bindings and their order, a second
    [forget] throws, and a later [define] of the name starts afresh, with
    no record of the forgotten definition and the name at the end of the
    list. *)
Theorem forget_discards (now : Date) (name : string) (word : Word)
    (partial : PartialWord) (d : Dictionary.t) :
  dict_inv d →
  Dictionary.words d !! name = Some word → protected word = false →
  ∃ d' d'',
    Dictionary.forget name d = (Normal tt, d')
    ∧ Dictionary.find name d' = (Normal None, d')
    ∧ (∀ other, other ≠ name →
         Dictionary.find other d' = (Normal (Dictionary.words d !! other), d'))
    ∧ sublist (Dictionary.definitionOrder d') (Dictionary.definitionOrder d)
    ∧ (∀ other, other ∈ Dictionary.definitionOrder d'
                ↔ other ∈ Dictionary.definitionOrder d ∧ other ≠ name)
    ∧ Dictionary.forget name d'
      = (Throw (Error ("Cannot forget unknown word: " ++ name)), d')
    ∧ Dictionary.define now name partial d' = (Normal tt, d'')
    ∧ Dictionary.words d'' !! name
      = Some (Dictionary.completeWord now name partial)
    ∧ Dictionary.definitionOrder d''
      = Dictionary.definitionOrder d' ++ [name].
Proof.
  intros Hd Hfind Hp. rewrite forget_eq, Hfind, Hp.
  eexists _, _. split; [reflexivity|].
  rewrite !find_eq, forget_eq, define_eq.
  cbn [Dictionary.words Dictionary.definitionOrder].
  rewrite lookup_delete_eq. cbn [Dictionary.is_protected].
  split; [done|]. split.
  { intros other Hne. rewrite find_eq. cbn [Dictionary.words].
    by rewrite lookup_delete_ne. }
  split; [apply remove_first_sublist|]. split.
  { intros other. destruct (decide (other = name)) as [->|Hne].
    - split; [|by intros [_ Hne]].
      intros Hin. by destruct (remove_first_not_elem_of name _ (inv_nodup _ Hd)).
    - rewrite remove_first_elem_of by done. split; [by split|by intros [Hin _]]. }
  split; [done|]. split; [reflexivity|].
  split; [cbn; by rewrite lookup_insert_eq|done].
Qed.

Lemma forget_discards_witness :
  dict_inv square_dictionary
  ∧ Dictionary.words square_dictionary !! "SQUARE"
    = Some (Dictionary.completeWord 6 "SQUARE" SQUARE)
  ∧ ∃ d', Dictionary.forget "SQUARE" square_dictionary = (Normal tt, d')
          ∧ Dictionary.find "SQUARE" d' = (Normal None, d').
Proof.
  assert (Hd : dict_inv square_dictionary)
    by (apply define_inv, new_dict_inv).
  assert (Hfind : Dictionary.words square_dictionary !! "SQUARE"
                  = Some (Dictionary.completeWord 6 "SQUARE" SQUARE))
    by (vm_compute; reflexivity).
  split; [exact Hd|]. split; [exact Hfind|].
  destruct (forget_discards 7 "SQUARE" _ SQUARE square_dictionary Hd Hfind
              eq_refl) as (d' & _ & Hforget & Hnone & _).
  exists d'. by split.
Defined.

Lemma has_category_cases (d : Dictionary.t) (n : string) :
  is_Some (Dictionary.words d !! n) →
  (Dictionary.has_category d CORE n, Dictionary.has_category d STANDARD n,
   Dictionary.has_category d USER n)
  ∈ [(true, false, false); (false, true, false); (false, false, true)].
Proof.
  intros [word Hword]. unfold Dictionary.has_category. rewrite Hword.
  destruct (category word); cbn.
  - apply list_elem_of_here.
  - apply list_elem_of_further, list_elem_of_here.
  - do 2 apply list_elem_of_further. apply list_elem_of_here.
Qed.

Lemma filter_by_category (d : Dictionary.t) (names : list string) :
  (∀ n, n ∈ names → is_Some (Dictionary.words d !! n)) →
  List.filter (Dictionary.has_category d CORE) names
  ++ List.filter (Dictionary.has_category d STANDARD) names
  ++ List.filter (Dictionary.has_category d USER) names
  ≡ₚ names.
Proof.
  induction names as [|n names IH]; intros Hall; [done|].
  cbn [List.filter].
  specialize (IH (λ k Hk, Hall k (list_elem_of_further _ _ _ Hk))).
  pose proof (has_category_cases d n (Hall n (list_elem_of_here _ _))) as Hc.
  destruct (Dictionary.has_category d CORE n),
    (Dictionary.has_category d STANDARD n),
    (Dictionary.has_category d USER n);
    repeat (apply elem_of_cons in Hc as [Hc|Hc]; [discriminate Hc|..]);
    try (by apply elem_of_nil in Hc); try discriminate Hc; cbn [app].
  - by constructor.
  - rewrite <- Permutation_middle. by constructor.
  - rewrite app_assoc, <- Permutation_middle, <- app_assoc. by constructor.
Qed.

Lemma list_filter_sublist {A} (f : A → bool) (l : list A) :
  sublist (List.filter f l) l.
Proof.
  induction l as [|x l IH]; [done|]. cbn. destruct (f x); by constructor.
Qed.

(** X15. [list] by category: the three filtered lists are sublists of
    [list()] (so they keep the definition order), a name is in the list of
    a category exactly when it is bound to a word of that category, and
    together the three lists hold every name of [list()] exactly once. *)
Theorem list_by_category (d : Dictionary.t) :
  dict_inv d →
  ∃ all core standard user,
    Dictionary.list None d = (Normal all, d)
    ∧ Dictionary.list (Some CORE) d = (Normal core, d)
    ∧ Dictionary.list (Some STANDARD) d = (Normal standard, d)
    ∧ Dictionary.list (Some USER) d = (Normal user, d)
    ∧ sublist core all ∧ sublist standard all ∧ sublist user all
    ∧ core ++ standard ++ user ≡ₚ all
    ∧ (∀ c names key,
         Dictionary.list (Some c) d = (Normal names, d) →
         key ∈ names
         ↔ ∃ word, Dictionary.words d !! key = Some word ∧ category word = c).
Proof.
  intros Hd. eexists _, _, _, _. rewrite !list_eq.
  split; [reflexivity|]. split; [reflexivity|]. split; [reflexivity|].
  split; [reflexivity|].
  split; [apply list_filter_sublist|]. split; [apply list_filter_sublist|].
  split; [apply list_filter_sublist|]. split.
  - apply filter_by_category. intros n Hn. by apply (inv_dom _ Hd).
  - intros c names key. rewrite list_eq. intros [= <-].
    rewrite list_elem_of_In, filter_In, <- list_elem_of_In.
    rewrite (inv_dom _ Hd). unfold Dictionary.has_category.
    destruct (Dictionary.words d !! key) as [word|].
    + rewrite bool_decide_eq_true. split.
      * intros [_ Hc]. by exists word.
      * intros (word' & [= <-] & Hc). split; [eauto|done].
    + split; [by intros [_ ?]|by intros (? & ? & _)].
Qed.

Lemma list_by_category_witness :
  dict_inv square_dictionary
  ∧ ∃ user, Dictionary.list (Some USER) square_dictionary
            = (Normal user, square_dictionary)
            ∧ "SQUARE" ∈ user.
Proof.
  assert (Hd : dict_inv square_dictionary)
    by (apply define_inv, new_dict_inv).
  split; [exact Hd|].
  destruct (list_by_category square_dictionary Hd)
    as (all & core & standard & user & _ & _ & _ & Huser & _ & _ & _ & _ & Hin).
  exists user. split; [exact Huser|].
  apply (Hin USER user "SQUARE" Huser).
  exists (Dictionary.completeWord 6 "SQUARE" SQUARE).
  split; [vm_compute; reflexivity|reflexivity].
Defined.

(** ** What a run can and cannot do *)

Lemma data_stack_only_refl (vm : VM.t) (w : World) :
  is_Some (stacks w !! VM.dataStack vm) →
  stack_inv (stack_at w (VM.dataStack vm)) →
  data_stack_only vm w w.
Proof. intros. by repeat split. Qed.

Lemma data_stack_only_trans (vm : VM.t) (w1 w2 w3 : World) :
  data_stack_only vm w1 w2 → data_stack_only vm w2 w3 →
  data_stack_only vm w1 w3.
Proof.
  intros (Hd & Hn & Hs & _ & _ & Hm) (Hd' & Hn' & Hs' & Hl' & Hi' & Hm').
  split; [congruence|]. split; [congruence|]. split.
  { intros l Hl. by rewrite Hs', Hs. }
  split; [done|]. split; [done|]. congruence.
Qed.

Lemma on_stack_method {A} (vm : VM.t) (f : SE Stack.t A) (w : World) :
  is_Some (stacks w !! VM.dataStack vm) →
  stack_inv (f (stack_at w (VM.dataStack vm))).2 →
  Stack.maxDepth (f (stack_at w (VM.dataStack vm))).2
  = Stack.maxDepth (stack_at w (VM.dataStack vm)) →
  data_stack_only vm w (on_stack (VM.dataStack vm) f w).2.
Proof.
  intros Hlive Hinv Hmax. rewrite on_stack_eq by done. cbn [snd].
  split; [done|]. split; [done|]. split.
  { intros l Hl. cbn. by rewrite lookup_insert_ne. }
  split; [by apply stacks_set_stack_is_Some|].
  by rewrite stack_at_set_stack.
Qed.

Lemma push_method (v : StackValue) (s : Stack.t) :
  stack_inv s →
  stack_inv (Stack.push v s).2
  ∧ Stack.maxDepth (Stack.push v s).2 = Stack.maxDepth s
  ∧ ∀ e, (Stack.push v s).1 = Throw e → e = StackOverflowError.
Proof.
  intros Hs. split; [by apply push_inv|]. unfold Stack.push.
  destruct (_ >=? _); cbn; [|done]. split; [done|]. by intros e [= <-].
Qed.

Lemma pop_method (s : Stack.t) :
  stack_inv s →
  stack_inv (Stack.pop s).2
  ∧ Stack.maxDepth (Stack.pop s).2 = Stack.maxDepth s
  ∧ ∀ e, (Stack.pop s).1 = Throw e → e = StackUnderflowError.
Proof.
  intros Hs. split; [by apply pop_inv|]. unfold Stack.pop.
  destruct (_ =? _)%nat; cbn; [|done]. split; [done|]. by intros e [= <-].
Qed.

Lemma peek_method (s : Stack.t) :
  stack_inv s →
  stack_inv (Stack.peek s).2
  ∧ Stack.maxDepth (Stack.peek s).2 = Stack.maxDepth s
  ∧ ∀ e, (Stack.peek s).1 = Throw e → e = StackUnderflowError.
Proof.
  intros Hs. split; [by apply peek_inv|]. unfold Stack.peek.
  destruct (_ =? _)%nat; cbn; [|done]. split; [done|]. by intros e [= <-].
Qed.

Lemma method_like_push (v : StackValue) : method_like (Stack.push v).
Proof.
  intros s Hs. destruct (push_method v s Hs) as (H1 & H2 & H3).
  split; [done|]. split; [done|]. intros e He. left. by apply H3.
Qed.

Lemma method_like_pop : method_like Stack.pop.
Proof.
  intros s Hs. destruct (pop_method s Hs) as (H1 & H2 & H3).
  split; [done|]. split; [done|]. intros e He. right. by apply H3.
Qed.

Lemma method_like_peek : method_like Stack.peek.
Proof.
  intros s Hs. destruct (peek_method s Hs) as (H1 & H2 & H3).
  split; [done|]. split; [done|]. intros e He. right. by apply H3.
Qed.

Lemma method_like_ret {A} (a : A) : method_like (mret a : SE Stack.t A).
Proof. intros s Hs. by repeat split. Qed.

Lemma method_like_bind {A B} (m : SE Stack.t A) (k : A → SE Stack.t B) :
  method_like m → (∀ a, method_like (k a)) → method_like (m ≫= k).
Proof.
  intros Hm Hk s Hs. rewrite bind_unfold.
  destruct (Hm s Hs) as (H1 & H2 & H3).
  destruct (m s) as [[a|e] s1]; cbn [fst snd] in *.
  - destruct (Hk a s1 H1) as (K1 & K2 & K3).
    split; [done|]. split; [congruence|done].
  - split; [done|]. split; [done|]. intros e' [= <-]. by apply H3.
Qed.

Ltac method_like :=
  repeat first
    [ apply method_like_push | apply method_like_pop
    | apply method_like_peek | apply method_like_ret
    | apply method_like_bind; [|intros ?] ].

Lemma core_words_stack_methods (word : Word) (f : SE Stack.t unit) :
  word ∈ CoreWords → body word = Native f → stack_method f.
Proof.
  unfold CoreWords, stackOps, arithmeticOps. cbn [app]. intros Hin Hbody.
  repeat (apply elem_of_cons in Hin as [->|Hin]);
    [..|by apply elem_of_nil in Hin];
    cbn [body DUP DROP SWAP OVER ROT TWODUP TWODROP TWOSWAP
           ADD SUB MUL DIV MOD EQ LT GT LTE GTE core_word] in Hbody;
    injection Hbody as <-; unfold stack_method, binary; method_like.
Qed.

Lemma dispatch_data_stack_only (vm : VM.t) (d : Dictionary.t) :
  natives_ok d →
  ∀ frames token w,
    dictionary_of vm w = d →
    is_Some (stacks w !! VM.dataStack vm) →
    stack_inv (stack_at w (VM.dataStack vm)) →
    data_stack_only vm w (dispatch frames vm token w).2
    ∧ ∀ e, (dispatch frames vm token w).1 = Throw e → run_error d e.
Proof.
  intros Hd. induction frames as [|frames IH]; intros token w Hw Hlive Hinv.
  - unfold dispatch. destruct (negb (isNaN (Number token))).
    + destruct (push_method (VNumber (Number token)) _ Hinv) as (P1 & P2 & P3).
      split; [by apply on_stack_method|].
      rewrite on_stack_eq by done. cbn [fst]. intros e He. left. by apply P3.
    + cbn. split; [by apply data_stack_only_refl|].
      intros e [= <-]. right. right. by left.
  - unfold dispatch. destruct (negb (isNaN (Number token))).
    + destruct (push_method (VNumber (Number token)) _ Hinv) as (P1 & P2 & P3).
      split; [by apply on_stack_method|].
      rewrite on_stack_eq by done. cbn [fst]. intros e He. left. by apply P3.
    + rewrite execute_name, Hw.
      destruct (Dictionary.words d !! token) as [word|] eqn:Hword.
      * destruct (body word) as [f|tokens] eqn:Hbody.
        -- destruct (Hd token word f Hword Hbody _ Hinv) as (P1 & P2 & P3).
           split; [by apply on_stack_method|].
           rewrite on_stack_eq by done. cbn [fst]. intros e He.
           destruct (P3 e He) as [->| ->]; [by left|right; by left].
        -- clear Hword Hbody. revert w Hw Hlive Hinv.
           induction tokens as [|t tokens IHt]; intros w Hw Hlive Hinv.
           { cbn. split; [by apply data_stack_only_refl|done]. }
           cbn [for_each]. rewrite bind_unfold.
           destruct (IH t w Hw Hlive Hinv) as [Hstep Herr].
           destruct (dispatch frames vm t w) as [[[]|e] w1]; cbn [fst snd] in *.
           ++ destruct Hstep as (S1 & S2 & S3 & S4 & S5 & S6).
              destruct (IHt w1) as [Hrest Herr']; [|done|done|].
              { unfold dictionary_of, dictionary_at. by rewrite S1. }
              split; [|done].
              eapply data_stack_only_trans; [|exact Hrest]. by repeat split.
           ++ split; [done|]. intros e' [= <-]. by apply Herr.
      * cbn. split; [by apply data_stack_only_refl|].
        intros e [= <-]. right. right. right. by exists token.
Qed.

Lemma run_data_stack_only (vm : VM.t) (frames : nat) (code : string)
    (w : World) :
  natives_ok (dictionary_of vm w) →
  is_Some (stacks w !! VM.dataStack vm) →
  stack_inv (stack_at w (VM.dataStack vm)) →
  data_stack_only vm w (VM.run frames vm code w).2
  ∧ ∀ e, (VM.run frames vm code w).1 = Throw e →
         run_error (dictionary_of vm w) e.
Proof.
  intros Hd. rewrite run_eq. generalize (VM.parse code). intros tokens.
  remember (dictionary_of vm w) as d eqn:Hw. symmetry in Hw. revert w Hw.
  induction tokens as [|t tokens IHt]; intros w Hw Hlive Hinv.
  { cbn. split; [by apply data_stack_only_refl|done]. }
  cbn [for_each]. rewrite bind_unfold.
  destruct (dispatch_data_stack_only vm d Hd frames t w Hw Hlive Hinv)
    as [Hstep Herr].
  destruct (dispatch frames vm t w) as [[[]|e] w1]; cbn [fst snd] in *.
  - destruct Hstep as (S1 & S2 & S3 & S4 & S5 & S6).
    destruct (IHt w1) as [Hrest Herr']; [|done|done|].
    { unfold dictionary_of, dictionary_at. by rewrite S1. }
    split; [|done].
    eapply data_stack_only_trans; [|exact Hrest]. by repeat split.
  - split; [done|]. intros e' [= <-]. by apply Herr.
Qed.
Lemma boot_natives_ok : natives_ok (dictionary_of boot_vm boot_world).
Proof.
  destruct (bootstrap_ok 1 None empty_world empty_world_inv)
    as (w' & Hboot & _ & _ & _ & _ & _ & Hin & Hout & _).
  unfold boot_world. rewrite Hboot. cbn [snd].
  intros key word f Hword Hbody.
  destruct (decide (key ∈ map name CoreWords)) as [Hkey|Hkey].
  - apply list_elem_of_fmap in Hkey as (word' & -> & Hword').
    apply (core_words_stack_methods word'); [done|].
    specialize (Hin word' Hword').
    change (dictionary_of boot_vm w') with (dictionary_at w' (next empty_world))
      in Hword.
    rewrite Hin in Hword. by injection Hword as ->.
  - specialize (Hout key Hkey).
    change (dictionary_of boot_vm w') with (dictionary_at w' (next empty_world))
      in Hword.
    by rewrite Hout in Hword.
Qed.

(** X16. A run changes nothing but the contents of the data stack: when
    the native words of the dictionary work on the stack through its
    methods, then after [run], however it ends, the dictionary, the return
    stack and every other object of the store are as before, and the data
    stack still satisfies its invariant with the same capacity. *)
Theorem run_confined (frames : nat) (vm : VM.t) (code : string) (w : World) :
  live vm w →
  natives_ok (dictionary_of vm w) →
  stack_inv (stack_at w (VM.dataStack vm)) →
  let w' := (VM.run frames vm code w).2 in
  dictionaries w' = dictionaries w
  ∧ next w' = next w
  ∧ (∀ l, l ≠ VM.dataStack vm → stacks w' !! l = stacks w !! l)
  ∧ live vm w'
  ∧ stack_inv (stack_at w' (VM.dataStack vm))
  ∧ Stack.maxDepth (stack_at w' (VM.dataStack vm))
    = Stack.maxDepth (stack_at w (VM.dataStack vm)).
Proof.
  intros Hlive Hd Hinv w'.
  destruct (run_data_stack_only vm frames code w Hd (proj1 Hlive) Hinv)
    as [(H1 & H2 & H3 & H4 & H5 & H6) _].
  fold w' in H1, H2, H3, H4, H5, H6.
  split; [done|]. split; [done|]. split; [done|]. split; [|done].
  destruct Hlive as (L1 & L2 & L3). split; [done|]. split.
  - destruct (decide (VM.returnStack vm = VM.dataStack vm)) as [->|Hne];
      [done|]. by rewrite H3.
  - by rewrite H1.
Qed.

Lemma run_confined_witness :
  live boot_vm boot_world
  ∧ natives_ok (dictionary_of boot_vm boot_world)
  ∧ stack_inv (stack_at boot_world (VM.dataStack boot_vm))
  ∧ dictionaries (VM.run 3 boot_vm "1 2 + DUP *" boot_world).2
    = dictionaries boot_world.
Proof.
  destruct boot_inv as [_ Hvm].
  pose proof (inv_live _ _ Hvm) as Hlive.
  pose proof (inv_data _ _ Hvm) as Hinv.
  split; [exact Hlive|]. split; [exact boot_natives_ok|].
  split; [exact Hinv|].
  apply (run_confined 3 boot_vm "1 2 + DUP *" boot_world Hlive
           boot_natives_ok Hinv).
Defined.

(** X17. What a run can throw: when the native words of the dictionary
    work on the stack through its methods, [run] throws nothing but
    [StackOverflowError], [StackUnderflowError], [WordNotFoundError] for a
    token that the dictionary does not bind, and the error of the host when
    the calls of [execute] nest too deep. *)
Theorem run_throws_only (frames : nat) (vm : VM.t) (code : string)
    (w : World) (e : JSError) :
  live vm w →
  natives_ok (dictionary_of vm w) →
  stack_inv (stack_at w (VM.dataStack vm)) →
  (VM.run frames vm code w).1 = Throw e →
  e = StackOverflowError ∨ e = StackUnderflowError
  ∨ e = CallStackExceeded
  ∨ ∃ token, Dictionary.words (dictionary_of vm w) !! token = None
             ∧ e = WordNotFoundError token.
Proof.
  intros Hlive Hd Hinv He.
  by apply (run_data_stack_only vm frames code w Hd (proj1 Hlive) Hinv).
Qed.

Lemma run_throws_only_witness :
  live boot_vm boot_world
  ∧ natives_ok (dictionary_of boot_vm boot_world)
  ∧ stack_inv (stack_at boot_world (VM.dataStack boot_vm))
  ∧ (VM.run 3 boot_vm "1 NOPE" boot_world).1
    = Throw (WordNotFoundError "NOPE")
  ∧ (WordNotFoundError "NOPE" = StackOverflowError
     ∨ WordNotFoundError "NOPE" = StackUnderflowError
     ∨ WordNotFoundError "NOPE" = CallStackExceeded
     ∨ ∃ token,
         Dictionary.words (dictionary_of boot_vm boot_world) !! token = None
         ∧ WordNotFoundError "NOPE" = WordNotFoundError token).
Proof.
  destruct boot_inv as [_ Hvm].
  pose proof (inv_live _ _ Hvm) as Hlive.
  pose proof (inv_data _ _ Hvm) as Hinv.
  assert (He : (VM.run 3 boot_vm "1 NOPE" boot_world).1
               = Throw (WordNotFoundError "NOPE"))
    by (vm_compute; reflexivity).
  split; [exact Hlive|]. split; [exact boot_natives_ok|].
  split; [exact Hinv|]. split; [exact He|].
  exact (run_throws_only 3 boot_vm "1 NOPE" boot_world _ Hlive
           boot_natives_ok Hinv He).
Defined.



(** ** Restoring a state *)

Lemma dictionary_grows_refl (keys : list string) (d : Dictionary.t) :
  dictionary_grows keys d d.
Proof. by repeat split. Qed.

Lemma dictionary_grows_trans (keys1 keys2 : list string)
    (d1 d2 d3 : Dictionary.t) :
  dictionary_grows keys1 d1 d2 → dictionary_grows keys2 d2 d3 →
  dictionary_grows (keys1 ++ keys2) d1 d3.
Proof.
  intros (A1 & A2 & A3) (B1 & B2 & B3). split; [|split].
  - intros key Hkey. apply not_elem_of_app in Hkey as [H1 H2].
    by rewrite B1, A1.
  - intros key Hkey. by apply B2, A2.
  - by etrans.
Qed.

Lemma define_grows (now : Date) (name : string) (word : PartialWord)
    (d : Dictionary.t) :
  dictionary_grows [name] d (Dictionary.define now name word d).2.
Proof.
  rewrite define_eq. destruct (Dictionary.is_protected _);
    [apply dictionary_grows_refl|].
  destruct (Dictionary.words d !! name) as [old|] eqn:Hold; cbn [snd].
  - split; [|split]; cbn [Dictionary.words Dictionary.definitionOrder].
    + intros key [Hkey _]%not_elem_of_cons. by rewrite lookup_insert_ne.
    + intros key Hkey. destruct (decide (key = name)) as [->|Hne].
      * rewrite lookup_insert_eq. eauto.
      * by rewrite lookup_insert_ne.
    + done.
  - split; [|split]; cbn [Dictionary.words Dictionary.definitionOrder].
    + intros key [Hkey _]%not_elem_of_cons. by rewrite lookup_insert_ne.
    + intros key Hkey. destruct (decide (key = name)) as [->|Hne].
      * rewrite lookup_insert_eq. eauto.
      * by rewrite lookup_insert_ne.
    + by apply prefix_app_r.
Qed.

Lemma restore_word_grow (now : Date) (vm : VM.t) (entry : SerializedWord)
    (w : World) :
  is_Some (dictionaries w !! VM.dictionary vm) →
  stacks (VM.restore_word now vm entry w).2 = stacks w
  ∧ is_Some (dictionaries (VM.restore_word now vm entry w).2
             !! VM.dictionary vm)
  ∧ dictionary_grows
      (if negb (String.eqb (s_body entry) "__NATIVE__")
       then [s_name entry] else [])
      (dictionary_of vm w)
      (dictionary_of vm (VM.restore_word now vm entry w).2).
Proof.
  intros Hlive. unfold VM.restore_word.
  destruct (String.eqb_spec (s_body entry) "__NATIVE__") as [Hn|Hn].
  - rewrite bool_decide_eq_true_2 by done. cbn.
    split; [done|]. split; [done|]. apply dictionary_grows_refl.
  - rewrite bool_decide_eq_false_2 by done. cbn [negb].
    destruct (JSON_parse (s_body entry)) as [tokens|].
    + rewrite on_dictionary_eq by done. cbn [snd].
      split; [done|]. split; [cbn; rewrite lookup_insert_eq; eauto|].
      unfold dictionary_of at 2. rewrite dictionary_at_set_dictionary.
      apply define_grows.
    + cbn. split; [done|]. split; [done|]. apply dictionary_grows_refl.
Qed.

Lemma restore_words_grow (now : Date) (vm : VM.t)
    (entries : list SerializedWord) (w : World) :
  is_Some (dictionaries w !! VM.dictionary vm) →
  stacks (for_each (VM.restore_word now vm) entries w).2 = stacks w
  ∧ is_Some (dictionaries (for_each (VM.restore_word now vm) entries w).2
             !! VM.dictionary vm)
  ∧ dictionary_grows
      (map s_name
         (List.filter (λ entry, negb (String.eqb (s_body entry) "__NATIVE__"))
            entries))
      (dictionary_of vm w)
      (dictionary_of vm (for_each (VM.restore_word now vm) entries w).2).
Proof.
  revert w. induction entries as [|entry entries IH]; intros w Hlive.
  { cbn. split; [done|]. split; [done|]. apply dictionary_grows_refl. }
  cbn [for_each]. rewrite bind_unfold.
  destruct (restore_word_grow now vm entry w Hlive) as (S1 & S2 & S3).
  assert (Hkeys :
    map s_name
      (List.filter (λ entry, negb (String.eqb (s_body entry) "__NATIVE__"))
         (entry :: entries))
    = (if negb (String.eqb (s_body entry) "__NATIVE__")
       then [s_name entry] else [])
      ++ map s_name
           (List.filter
              (λ entry, negb (String.eqb (s_body entry) "__NATIVE__"))
              entries)).
  { cbn [List.filter]. by destruct (negb _). }
  rewrite Hkeys. clear Hkeys.
  destruct (VM.restore_word now vm entry w) as [[[]|e] w1];
    cbn [fst snd] in *.
  - destruct (IH w1 S2) as (I1 & I2 & I3).
    split; [congruence|]. split; [done|].
    by eapply dictionary_grows_trans.
  - split; [done|]. split; [done|].
    eapply dictionary_grows_trans; [exact S3|apply dictionary_grows_refl].
Qed.

Lemma for_each_push_items (vs : list StackValue) (s s' : Stack.t) :
  for_each Stack.push vs s = (Normal tt, s') →
  Stack.items s' = Stack.items s ++ vs.
Proof.
  revert s. induction vs as [|v vs IH]; intros s.
  - intros [= <-]. by rewrite app_nil_r.
  - cbn [for_each]. rewrite bind_unfold. unfold Stack.push at 1.
    destruct (_ >=? _); [done|]. intros H%IH. rewrite H. cbn.
    by rewrite <- app_assoc.
Qed.

(** X19. [deserialize] replaces the stack and only adds to the
    dictionary: however the call ends, every name that was bound is still
    bound, a name that the state does not restore is bound to the same word
    as before (the USER words of the target are not cleared), and the
    earlier names keep their places in [list()]; when the call returns, the
    data stack holds exactly the values of the state, whatever it held
    before. *)
Theorem deserialize_keeps_words (now : Date) (vm : VM.t) (state : VMState)
    (w : World) :
  live vm w →
  let w' := (VM.deserialize now vm state w).2 in
  dictionary_grows (restored_names state)
    (dictionary_of vm w) (dictionary_of vm w')
  ∧ ((VM.deserialize now vm state w).1 = Normal tt →
     snapshot_of vm w' = state_stack state).
Proof.
  intros (Hls & _ & Hld) w'. subst w'. unfold VM.deserialize.
  rewrite bind_unfold, on_stack_eq by done. cbn [Stack.clear fst snd].
  cbv beta iota.
  set (l := VM.dataStack vm).
  rewrite bind_unfold, (on_stack_for_each l)
    by by apply stacks_set_stack_is_Some.
  rewrite stack_at_set_stack, set_stack_set_stack.
  destruct (for_each Stack.push (state_stack state) _) as [[[]|e] s1] eqn:Hpush;
    cbn [fst snd]; cbv beta iota.
  - set (w1 := set_stack l s1 w).
    destruct (restore_words_grow now vm (state_dictionary state) w1)
      as (R1 & R2 & R3); [done|].
    split; [exact R3|]. intros _. unfold snapshot_of, stack_at.
    rewrite R1. change (Stack.items (stack_at w1 l) = state_stack state).
    unfold w1. rewrite stack_at_set_stack.
    by rewrite (for_each_push_items _ _ _ Hpush).
  - split; [apply dictionary_grows_refl|done].
Qed.

Lemma deserialize_keeps_words_witness :
  live boot_vm source_world
  ∧ dictionary_grows []
      (dictionary_of boot_vm source_world)
      (dictionary_of boot_vm
         (VM.deserialize 9 boot_vm
            (mkVMState "0.1.0" 0 [int 7] [] (mkVMConfig None None))
            source_world).2).
Proof.
  pose proof (inv_live _ _ (proj2 source_world_inv)) as Hlive.
  split; [exact Hlive|].
  apply (deserialize_keeps_words 9 boot_vm
           (mkVMState "0.1.0" 0 [int 7] [] (mkVMConfig None None))
           source_world Hlive).
Defined.

Lemma push_overflow (vs items : list StackValue) (m : Z) :
  Z.of_nat (length items) <= m →
  m < Z.of_nat (length items + length vs) →
  for_each Stack.push vs (Stack.mk items m)
  = (Throw StackOverflowError,
     Stack.mk (items ++ take (Z.to_nat m - length items) vs) m).
Proof.
  revert items. induction vs as [|v vs IH]; intros items Hle Hlt.
  { cbn [length] in Hlt. lia. }
  cbn [for_each]. rewrite bind_unfold.
  destruct (decide (Z.of_nat (length items) < m)) as [Hroom|Hfull].
  - rewrite push_mk_ok by done. rewrite IH.
    + replace (Z.to_nat m - length items)%nat
        with (S (Z.to_nat m - length (items ++ [v])))
        by (rewrite length_app; cbn [length]; lia).
      cbn [take]. by rewrite <- app_assoc.
    + rewrite length_app. cbn [length]. lia.
    + rewrite length_app. cbn [length] in *. lia.
  - rewrite push_mk_full by lia.
    replace (Z.to_nat m - length items)%nat with 0%nat by lia.
    cbn [take]. by rewrite app_nil_r.
Qed.

(** X20. Restoring a state with more values than the data stack of the
    target can hold throws [StackOverflowError] part-way: the stack is
    left holding the first [maxDepth] values of the state, and no word of
    the state has been defined. *)
Theorem deserialize_overflow (now : Date) (vm : VM.t) (state : VMState)
    (w : World) :
  live vm w →
  0 <= Stack.maxDepth (stack_at w (VM.dataStack vm)) →
  Stack.maxDepth (stack_at w (VM.dataStack vm))
    < Z.of_nat (length (state_stack state)) →
  ∃ w',
    VM.deserialize now vm state w = (Throw StackOverflowError, w')
    ∧ snapshot_of vm w'
      = take (Z.to_nat (Stack.maxDepth (stack_at w (VM.dataStack vm))))
          (state_stack state)
    ∧ dictionaries w' = dictionaries w.
Proof.
  intros (Hls & _ & Hld) Hm Hlen. unfold VM.deserialize.
  rewrite bind_unfold, on_stack_eq by done. cbn [Stack.clear fst snd].
  cbv beta iota.
  rewrite bind_unfold, (on_stack_for_each (VM.dataStack vm))
    by by apply stacks_set_stack_is_Some.
  rewrite stack_at_set_stack, set_stack_set_stack.
  rewrite push_overflow by (cbn [length]; lia).
  cbn [fst snd app length]. cbv beta iota.
  eexists. split; [reflexivity|]. split; [|done].
  unfold snapshot_of. rewrite stack_at_set_stack. cbn [Stack.items].
  by rewrite Nat.sub_0_r.
Qed.

Lemma deserialize_overflow_witness :
  live big_vm big_world
  ∧ ∃ w',
      VM.deserialize 9 big_vm
        (mkVMState "0.1.0" 0 (replicate 301 (int 1)) []
           (mkVMConfig None None)) big_world
      = (Throw StackOverflowError, w')
      ∧ snapshot_of big_vm w' = replicate 300 (int 1).
Proof.
  destruct big_world_inv as [_ Hvm].
  pose proof (inv_live _ _ Hvm) as Hlive.
  pose proof (inv_data_depth _ _ Hvm) as Hdepth.
  split; [exact Hlive|].
  destruct (deserialize_overflow 9 big_vm
              (mkVMState "0.1.0" 0 (replicate 301 (int 1)) []
                 (mkVMConfig None None)) big_world Hlive)
    as (w' & Hdes & Hsnap & _).
  - rewrite Hdepth. cbn. lia.
  - rewrite Hdepth. cbn. lia.
  - exists w'. split; [exact Hdes|]. rewrite Hsnap, Hdepth. reflexivity.
Defined.

(** ** Copies of a VM *)














(** ** Bootstrap and the serialized state *)






(** X23. What [serialize] records: the version, the configuration, a
    copy of the data stack, and one entry for each name of [list('USER')],
    in that order and without repetition; an entry records the word bound
    to its name, which is of category USER, and its body is the marker of
    a native body exactly when the body of the word is native. *)
Theorem serialize_contents (now : Date) (vm : VM.t) (w : World) :
  dict_inv (dictionary_of vm w) →
  ∃ state,
    VM.serialize now vm w = (Normal state, w)
    ∧ state_version state = "0.1.0"
    ∧ state_timestamp state = now
    ∧ state_config state = VM.config vm
    ∧ state_stack state = snapshot_of vm w
    ∧ Dictionary.list (Some USER) (dictionary_of vm w)
      = (Normal (map s_name (state_dictionary state)), dictionary_of vm w)
    ∧ NoDup (map s_name (state_dictionary state))
    ∧ Forall
        (λ entry,
           ∃ word,
             Dictionary.words (dictionary_of vm w) !! s_name entry
             = Some word
             ∧ category word = USER
             ∧ entry = serialized word
             ∧ (s_body entry = "__NATIVE__" ↔ ∃ f, body word = Native f))
        (state_dictionary state).
Proof.
  intros Hd. eexists. split; [apply serialize_eq|].
  cbn [state_version state_timestamp state_config state_stack
         state_dictionary].
  split; [done|]. split; [done|]. split; [done|]. split; [done|].
  assert (Hnames : map s_name (map serialized (user_words (dictionary_of vm w)))
                   = user_names (dictionary_of vm w)).
  { rewrite <- (user_words_names _ Hd), map_map. done. }
  rewrite Hnames. split; [by rewrite list_eq|]. split.
  { rewrite <- (user_words_names _ Hd). by apply user_words_nodup. }
  apply Forall_forall. intros entry Hentry.
  apply list_elem_of_fmap in Hentry as (word & -> & Hword).
  apply (user_words_spec _ _ Hd) in Hword as [Hword Hc].
  exists word. split; [done|]. split; [done|]. split; [done|].
  cbn [serialized s_body]. destruct (body word) as [f|tokens].
  - split; [eauto|done].
  - split; [by intros H%JSON_stringify_not_native|by intros [f ?]].
Qed.

Lemma serialize_contents_witness :
  dict_inv (dictionary_of boot_vm source_world)
  ∧ ∃ state,
      VM.serialize 9 boot_vm source_world = (Normal state, source_world)
      ∧ state_stack state = snapshot_of boot_vm source_world
      ∧ NoDup (map s_name (state_dictionary state)).
Proof.
  pose proof (inv_dictionary _ _ (proj2 source_world_inv)) as Hd.
  split; [exact Hd|].
  destruct (serialize_contents 9 boot_vm source_world Hd)
    as (state & Hser & _ & _ & _ & Hstack & _ & Hnodup & _).
  exists state. split; [exact Hser|]. split; [exact Hstack|exact Hnodup].
Defined.






(** ** The stack, one call after another *)

(** X25. Calls on a stack undo each other: on a stack with room, [push]
    and then [pop] returns the value pushed and restores the stack; on a
    stack that is not empty, [pop] and then [push] of the value popped
    restores it; [peek] is [pop] followed by [push] of the same value, on
    every valid stack; [snapshot] lists the values bottom first, [depth]
    counts them, and after [clear] the stack is empty with its capacity
    unchanged. *)
Theorem stack_round_trips (s : Stack.t) (v : StackValue) :
  stack_inv s →
  (Z.of_nat (length (Stack.items s)) < Stack.maxDepth s →
   (Stack.push v;; Stack.pop) s = (Normal v, s))
  ∧ (Stack.items s ≠ [] →
     (top ← Stack.pop; Stack.push top) s = (Normal tt, s))
  ∧ Stack.peek s = (top ← Stack.pop; Stack.push top;; mret top) s
  ∧ (∀ s', Stack.push v s = (Normal tt, s') →
       Stack.snapshot s' = (Normal (Stack.items s ++ [v]), s')
       ∧ Stack.depth s' = (Normal (S (length (Stack.items s))), s'))
  ∧ (Stack.clear;; Stack.depth) s
    = (Normal 0%nat, Stack.mk [] (Stack.maxDepth s)).
Proof.
  intros Hinv. destruct s as [items m]. unfold stack_inv in Hinv.
  cbn [Stack.items Stack.maxDepth] in *.
  split; [|split; [|split; [|split]]].
  - intros Hroom. stack_run. reflexivity.
  - intros Hne. destruct (snoc_cases items) as [->|(below & top & ->)]; [done|].
    rewrite length_app in Hinv. cbn [length] in Hinv.
    stack_run. reflexivity.
  - destruct (snoc_cases items) as [->|(below & top & ->)]; [done|].
    rewrite length_app in Hinv. cbn [length] in Hinv.
    stack_run. reflexivity.
  - intros s'. unfold Stack.push. cbn [Stack.items Stack.maxDepth].
    destruct (_ >=? _); [done|]. intros [= <-].
    unfold Stack.snapshot, Stack.depth. cbn [Stack.items].
    rewrite length_app. cbn [length]. by rewrite Nat.add_1_r.
  - reflexivity.
Qed.

Lemma stack_round_trips_witness :
  stack_inv (Stack.mk [int 1; int 2] 256)
  ∧ (Stack.push (int 3);; Stack.pop) (Stack.mk [int 1; int 2] 256)
    = (Normal (int 3), Stack.mk [int 1; int 2] 256).
Proof.
  assert (Hinv : stack_inv (Stack.mk [int 1; int 2] 256))
    by (unfold stack_inv; cbn; lia).
  split; [exact Hinv|].
  apply (stack_round_trips (Stack.mk [int 1; int 2] 256) (int 3) Hinv).
  cbn. lia.
Defined.

(** ** Compiled words as text *)

Lemma drop_whitespace_blank (s : list ascii) :
  Forall (λ c, is_whitespace c = true) s → drop_whitespace s = [].
Proof. induction 1 as [|c s Hc _ IH]; [done|]. cbn. by rewrite Hc. Qed.

Lemma Number_blank (token : string) : blank token → Number token = Finite 0.
Proof.
  intros H. unfold Number, trim. by rewrite (drop_whitespace_blank _ H).
Qed.

Lemma bind_ret_unit {S} (m : SE S unit) (s : S) : (m;; mret tt) s = m s.
Proof. rewrite bind_unfold. by destruct (m s) as [[[]|e] s']. Qed.

(** X26. Calling a compiled word is running its body as text: when the
    tokens of the body are non-empty and free of white space, [run] of the
    word's name behaves exactly as [run] of the tokens joined by spaces,
    with one nested call less to spare.  A token of a body that is empty
    or all white space, which [parse] never yields, is a numeral: it
    pushes 0. *)
Theorem compiled_word_inlines (frames : nat) (vm : VM.t) (name : string)
    (word : Word) (tokens : list string) (w : World) :
  Dictionary.words (dictionary_of vm w) !! name = Some word →
  body word = Compiled tokens →
  token_like name → isNaN (Number name) = true →
  (Forall token_like tokens →
   VM.run (S frames) vm name w
   = VM.run frames vm (String.concat " " tokens) w)
  ∧ (∀ token, blank token →
       dispatch frames vm token
       = on_stack (VM.dataStack vm) (Stack.push (VNumber (Finite 0)))).
Proof.
  intros Hword Hbody Hname Hnum. split.
  - intros Htokens. rewrite !run_eq, !parse_eq.
    rewrite (tokens_from_join tokens Htokens).
    assert (tokens_from [] (list_ascii_of_string name) = [name]) as ->.
    { apply (tokens_from_join [name]). by constructor. }
    cbn [for_each]. rewrite bind_ret_unit, dispatch_word by done.
    by rewrite execute_name, Hword, Hbody.
  - intros token Hblank. rewrite dispatch_numeral.
    + by rewrite (Number_blank token Hblank).
    + by rewrite (Number_blank token Hblank).
Qed.

Lemma compiled_word_inlines_witness :
  Dictionary.words (dictionary_of boot_vm square_world) !! "SQUARE"
  = Some (Dictionary.completeWord 6 "SQUARE" SQUARE)
  ∧ token_like "SQUARE"
  ∧ Forall token_like ["DUP"; "*"]
  ∧ VM.run 2 boot_vm "SQUARE" square_world
    = VM.run 1 boot_vm (String.concat " " ["DUP"; "*"]) square_world.
Proof.
  assert (Hword : Dictionary.words (dictionary_of boot_vm square_world)
                    !! "SQUARE"
                  = Some (Dictionary.completeWord 6 "SQUARE" SQUARE))
    by (vm_compute; reflexivity).
  assert (Hname : token_like "SQUARE") by (split; [done|repeat constructor]).
  assert (Htokens : Forall token_like ["DUP"; "*"])
    by (repeat constructor; done).
  split; [exact Hword|]. split; [exact Hname|]. split; [exact Htokens|].
  apply (compiled_word_inlines 1 boot_vm "SQUARE" _ ["DUP"; "*"] square_world
           Hword eq_refl Hname eq_refl).
  exact Htokens.
Defined.
